(** * z-games-api: the live game gateway

    A shallow embedding of [GameGateway] (the socket gateway of the API):
    the connect / disconnect presence handlers with their two timer maps,
    the command handlers that drive the game service, and the fan-out
    helpers that emit to a room, to a user or to everybody.

    The gateway's collaborators (game, user, invite, log and token
    services) are taken as a record of functions over an abstract store;
    the socket server is an explicit part of the state: the table of
    connected sockets (in connection order), the room index of its adapter
    and the list of messages emitted so far.  Timers are explicit too: [setTimeout]
    pushes an entry on a pending list, [clearTimeout] removes it, and the
    event loop fires the entries that are due.

    Each handler is one atomic step: every [await] on a collaborator
    resolves before the next event is looked at.  A collaborator's call
    either goes through or fails, with an exception that carries a
    response or with an error that carries none; the handlers tell the
    two apart when they read [error.response.message].  The event loop
    includes what the socket server itself does when a socket opens or
    closes. *)

From Stdlib Require Import ZArith List Ascii.
From stdpp Require Import gmap strings list fin_maps.
Import ListNotations.

Local Open Scope string_scope.
Local Open Scope list_scope.
Local Open Scope Z_scope.

(** ** Entities *)

(** A populated reference to a game, as found in [user.openedGame]. *)
Record GameRef := { ref_id : string; ref_number : Z }.

Record User := {
  user_id : string;
  openedGame : option GameRef;
  currentWatch : option GameRef;
  currentGames : option (list GameRef)
}.

(** What [logService.create] is called with. *)
Record LogEntry := {
  log_type : string;
  log_user : User;
  log_gameId : string;
  log_text : option string
}.

Record Game := {
  game_id : string;
  game_number : Z;
  game_name : string;
  game_state : Z;
  game_players : list string;
  game_logs : list LogEntry
}.

Record Invite := {
  invite_id : string;
  invite_game : GameRef;
  invite_invitee : string
}.

(** A socket as the server holds it: [user] is attached by the guard and
    is absent until then. *)
Record Socket := {
  sock_id : string;
  sock_token : string;
  sock_user : option User
}.

(** [Socket & { user: User }], the argument of the guarded handlers. *)
Record Client := {
  client_id : string;
  client_token : string;
  client_user : User
}.

Definition socket_of (c : Client) : Socket :=
  {| sock_id := client_id c; sock_token := client_token c;
     sock_user := Some (client_user c) |}.

(** ** Timers *)

Inductive TimerAction :=
| ClearConnect (token : string)
| CommitDisconnect (user : User) (client : Socket).

Record Timer := {
  timer_id : nat;
  fire_at : Z;
  timer_action : TimerAction
}.

Definition TIMEOUT : Z := 4000.

(** ** Plain objects used as tables

    The names of the properties that every plain object inherits from
    [Object.prototype]: reading one of them from an object used as a table
    gives a function (the prototype itself, for [__proto__]) and never
    [undefined], whether or not the table has an entry of that name. *)
Definition inherited (key : string) : bool :=
  bool_decide
    (key ∈ ["constructor"; "__defineGetter__"; "__defineSetter__";
            "hasOwnProperty"; "__lookupGetter__"; "__lookupSetter__";
            "isPrototypeOf"; "propertyIsEnumerable"; "toString"; "valueOf";
            "__proto__"; "toLocaleString"]).

(** ** Failures of the collaborators

    What a rejected call throws: an exception of the framework, whose
    [response.message] the handlers read in their [catch] blocks, or any
    other error (a failure of the database, a [TypeError]), which has no
    [response]. *)
Inductive Failure :=
| Rejected (message : string)
| Failed.

(** ** Outcome of a handler *)

Inductive Outcome (A : Type) :=
| Done (a : A)
| Thrown.
Arguments Done {A} a.
Arguments Thrown {A}.

Section Gateway.

Context {DB View : Type}.

(** ** Messages *)

Inductive Payload :=
| PNothing
| PNull
| PView (v : View)
| PGames (vs : list View)
| PGameNumber (n : Z)
| PError (message : string)
| PInvite (i : Invite)
| PUser (u : option User).

Inductive Target :=
| ToSocket (sid : string)
| ToAll.

Record Emission := {
  em_target : Target;
  em_event : string;
  em_data : Payload
}.

(** ** The collaborators

    A call that fails gives the [Failure] it throws and leaves the store
    as it was. *)
Record Services := {
  GAME_FINISHED : Z;
  getUserIdByToken : string -> string;
  findOneByUserId : string -> DB -> option User;
  findOne : Z -> DB -> option Game;
  gs_getAllGames : string -> DB -> list View;
  parseGameForUser : Game -> User -> View;
  parseGameForAllUsers : Game -> View;
  gs_newGame : string -> string -> DB -> Failure + (Game * DB);
  gs_joinGame : User -> Z -> DB -> Failure + (Game * DB);
  gs_openGame : User -> Z -> DB -> Failure + (Game * DB);
  gs_watchGame : User -> Z -> DB -> Failure + (Game * DB);
  gs_leaveGame : User -> Z -> DB -> Failure + (Game * DB);
  gs_closeGame : User -> Z -> DB -> Failure + (Game * DB);
  gs_removeGame : User -> Z -> DB -> Failure + DB;
  gs_toggleReady : User -> Z -> DB -> Failure + (Game * DB);
  gs_updateOption : User -> Z -> string -> string -> DB -> Failure + (Game * DB);
  gs_startGame : Z -> DB -> Failure + (Game * DB);
  gs_makeMove : string -> Z -> string -> DB -> Failure + (Game * DB);
  logService_create : LogEntry -> DB -> Failure + DB;
  inviteService_create : string -> User -> string -> DB -> Failure + (Invite * DB);
  inviteService_closeInvite : string -> bool -> DB -> Failure + (Invite * DB);
  inviteService_closeInvites : string -> DB -> Failure + DB;
  (** a token that the token service resolves to a user is a JSON Web
      Token, three segments joined by dots: a handshake token that names
      an inherited property is none, and resolves to no user *)
  token_is_jwt :
    forall token d,
      inherited token = true ->
      findOneByUserId (getUserIdByToken token) d = None
}.

(** ** The state of the gateway and of the socket server

    The two timer tables are plain objects used as maps from a key (a
    handshake token, a user id) to the handle of a timer, and are
    modelled by the map of their own entries.  The connect table is read
    with whatever token the client sends, so the handler's test also
    looks at [inherited]; the user ids are those that the store hands
    out, and ids that name an inherited property are not considered (nor
    are they for the names of the rooms, which are ids of games and of
    sockets).  [logs] is the
    list of the entries the log service has accepted, [outbox] the list
    of the messages emitted, oldest first. *)
Record World := {
  db : DB;
  now : Z;
  next_timer : nat;
  pending : list Timer;
  connectTimers : gmap string nat;
  disconnectTimers : gmap string nat;
  connected : list Socket;
  rooms : gmap string (list string);
  logs : list LogEntry;
  outbox : list Emission
}.

Definition set_db (d : DB) (w : World) : World :=
  {| db := d; now := now w; next_timer := next_timer w; pending := pending w;
     connectTimers := connectTimers w; disconnectTimers := disconnectTimers w;
     connected := connected w; rooms := rooms w; logs := logs w;
     outbox := outbox w |}.

Definition set_now (t : Z) (w : World) : World :=
  {| db := db w; now := t; next_timer := next_timer w; pending := pending w;
     connectTimers := connectTimers w; disconnectTimers := disconnectTimers w;
     connected := connected w; rooms := rooms w; logs := logs w;
     outbox := outbox w |}.

Definition set_timers (n : nat) (p : list Timer) (w : World) : World :=
  {| db := db w; now := now w; next_timer := n; pending := p;
     connectTimers := connectTimers w; disconnectTimers := disconnectTimers w;
     connected := connected w; rooms := rooms w; logs := logs w;
     outbox := outbox w |}.

Definition set_connectTimers (m : gmap string nat) (w : World) : World :=
  {| db := db w; now := now w; next_timer := next_timer w; pending := pending w;
     connectTimers := m; disconnectTimers := disconnectTimers w;
     connected := connected w; rooms := rooms w; logs := logs w;
     outbox := outbox w |}.

Definition set_disconnectTimers (m : gmap string nat) (w : World) : World :=
  {| db := db w; now := now w; next_timer := next_timer w; pending := pending w;
     connectTimers := connectTimers w; disconnectTimers := m;
     connected := connected w; rooms := rooms w; logs := logs w;
     outbox := outbox w |}.

Definition set_rooms (r : gmap string (list string)) (w : World) : World :=
  {| db := db w; now := now w; next_timer := next_timer w; pending := pending w;
     connectTimers := connectTimers w; disconnectTimers := disconnectTimers w;
     connected := connected w; rooms := r; logs := logs w;
     outbox := outbox w |}.

Definition set_connected (ss : list Socket) (w : World) : World :=
  {| db := db w; now := now w; next_timer := next_timer w; pending := pending w;
     connectTimers := connectTimers w; disconnectTimers := disconnectTimers w;
     connected := ss; rooms := rooms w; logs := logs w;
     outbox := outbox w |}.

Definition set_logs (l : list LogEntry) (w : World) : World :=
  {| db := db w; now := now w; next_timer := next_timer w; pending := pending w;
     connectTimers := connectTimers w; disconnectTimers := disconnectTimers w;
     connected := connected w; rooms := rooms w; logs := l;
     outbox := outbox w |}.

Definition set_outbox (o : list Emission) (w : World) : World :=
  {| db := db w; now := now w; next_timer := next_timer w; pending := pending w;
     connectTimers := connectTimers w; disconnectTimers := disconnectTimers w;
     connected := connected w; rooms := rooms w; logs := logs w;
     outbox := o |}.

(** ** The handler monad: state plus an uncaught exception *)
Definition M (A : Type) : Type := World -> Outcome A * World.

Definition ret {A} (a : A) : M A := fun w => (Done a, w).
Definition throw {A} : M A := fun w => (Thrown, w).
Definition bind {A B} (m : M A) (k : A -> M B) : M B :=
  fun w => match m w with
           | (Done a, w') => k a w'
           | (Thrown, w') => (Thrown, w')
           end.
Definition get : M World := fun w => (Done w, w).
Definition modify (f : World -> World) : M unit := fun w => (Done tt, f w).


Local Notation "x <- m ;; k" := (bind m (fun x => k))
  (at level 100, m at next level, right associativity).
Local Notation "m ;; k" := (bind m (fun _ => k))
  (at level 100, right associativity).

Context (svc : Services).

(** ** The socket server *)

(** [server.sockets.connected[socketId]] *)
Definition find_socket (sid : string) (w : World) : option Socket :=
  List.find (fun s => bool_decide (sock_id s = sid)) (connected w).

(** [adapter.add]: a room is created by its first member; joining twice
    changes nothing. *)
Definition room_add (sid room : string) (r : gmap string (list string))
  : gmap string (list string) :=
  match r !! room with
  | None => <[room := [sid]]> r
  | Some l => if decide (sid ∈ l) then r else <[room := l ++ [sid]]> r
  end.

(** [adapter.del]: a room that loses its last member is deleted. *)
Definition room_del (sid room : string) (r : gmap string (list string))
  : gmap string (list string) :=
  match r !! room with
  | None => r
  | Some l =>
      match filter (fun s => s ≠ sid) l with
      | [] => delete room r
      | l' => <[room := l']> r
      end
  end.

Definition join (sid room : string) : M unit :=
  modify (fun w => set_rooms (room_add sid room (rooms w)) w).

Definition leave (sid room : string) : M unit :=
  modify (fun w => set_rooms (room_del sid room (rooms w)) w).

Definition emit (to : Target) (event : string) (data : Payload) : M unit :=
  modify (fun w =>
    set_outbox (outbox w ++ [{| em_target := to; em_event := event;
                                em_data := data |}]) w).

(** [setTimeout(action, 4000)] returns the handle of the new timer. *)
Definition setTimeout (action : TimerAction) : M nat :=
  fun w =>
    let h := next_timer w in
    (Done h,
     set_timers (S h)
       (pending w ++ [{| timer_id := h; fire_at := now w + TIMEOUT;
                         timer_action := action |}]) w).

Definition clearTimeout (h : nat) : M unit :=
  modify (fun w =>
    set_timers (next_timer w)
      (filter (fun tm => timer_id tm ≠ h) (pending w)) w).

(** ** Calls to the collaborators *)

Definition call {A} (f : DB -> Failure + (A * DB)) : M (Failure + A) :=
  fun w => match f (db w) with
           | inl m => (Done (inl m), w)
           | inr (a, d) => (Done (inr a), set_db d w)
           end.

Definition call_ {A} (f : DB -> Failure + DB) (a : A) : M (Failure + A) :=
  fun w => match f (db w) with
           | inl m => (Done (inl m), w)
           | inr d => (Done (inr a), set_db d w)
           end.

(** [logService.create(entry)]: on success the entry is part of the log. *)
Definition log_create (entry : LogEntry) : M (Failure + LogEntry) :=
  fun w => match logService_create svc entry (db w) with
           | inl m => (Done (inl m), w)
           | inr d => (Done (inr entry), set_logs (logs w ++ [entry]) (set_db d w))
           end.

(** [JSON.parse(JSON.stringify(await this.gameService.findOne(n)))]: when
    no game comes back, the round trip (or the first use of the result)
    throws. *)
Definition findOne_parsed (n : Z) : M Game :=
  fun w => match findOne svc n (db w) with
           | Some g => (Done g, w)
           | None => (Thrown, w)
           end.

Definition mk_log (type : string) (user : User) (gameId : string)
  (text : option string) : LogEntry :=
  {| log_type := type; log_user := user; log_gameId := gameId;
     log_text := text |}.

(** ** Fan-out helpers *)

(** The line written to the server's own logger is not part of the
    state. *)
Definition sendError (client : Client) (message : string) : M unit :=
  emit (ToSocket (client_id client)) "error-message" (PError message).

(** [this.sendError({ client, message: error.response.message })] in a
    [catch]: for an error that has no [response], reading the message
    throws a [TypeError] out of the [catch] before anything is sent. *)
Definition sendError_response (client : Client) (error : Failure) : M unit :=
  match error with
  | Rejected message => sendError client message
  | Failed => throw
  end.

(** The body of the [forEach] over the socket ids of a room: a socket id
    with no connected socket behind it makes [socketInGame.user] throw. *)
Fixpoint each_in_room (f : string -> User -> M unit) (sids : list string)
  : M unit :=
  match sids with
  | [] => ret tt
  | sid :: rest =>
      w <- get ;;
      match find_socket sid w with
      | None => throw
      | Some s =>
          match sock_user s with
          | Some u => f sid u
          | None => ret tt
          end ;;
          each_in_room f rest
      end
  end.

(** What a room loop emits, as a list: one message per member that has
    a connected socket with an identity, in the order of the room. *)
Definition room_messages (mk : string -> User -> Emission)
  (sids : list string) (w : World) : list Emission :=
  omap (fun sid =>
          match find_socket sid w with
          | Some s =>
              match sock_user s with
              | Some u => Some (mk sid u)
              | None => None
              end
          | None => None
          end) sids.

(** The members of a room, in joining order; no room, no members. *)
Definition room_members (room : string) (w : World) : list string :=
  default [] (rooms w !! room).

(** The per-viewer message of a room broadcast, and the kick signal. *)
Definition view_message (game : Game) (sid : string) (u : User) : Emission :=
  {| em_target := ToSocket sid; em_event := "update-opened-game";
     em_data := PView (parseGameForUser svc game u) |}.

Definition kick_message (sid : string) (u : User) : Emission :=
  {| em_target := ToSocket sid; em_event := "update-opened-game";
     em_data := PNull |}.

Definition error_message (c : Client) (message : string) : Emission :=
  {| em_target := ToSocket (client_id c); em_event := "error-message";
     em_data := PError message |}.

Definition kickUsersFromGame (game : Game) : M unit :=
  w <- get ;;
  match rooms w !! game_id game with
  | None => ret tt
  | Some sids =>
      each_in_room
        (fun sid _ => emit (ToSocket sid) "update-opened-game" PNull) sids
  end.

Definition sendGameToGameUsers (game : Game) : M unit :=
  w <- get ;;
  match rooms w !! game_id game with
  | None => ret tt
  | Some sids =>
      each_in_room
        (fun sid u =>
           emit (ToSocket sid) "update-opened-game"
             (PView (parseGameForUser svc game u))) sids
  end.

(** The body of the [forEach] over every socket of the server. *)
Fixpoint each_socket (f : Socket -> User -> M unit) (ss : list Socket)
  : M unit :=
  match ss with
  | [] => ret tt
  | s :: rest =>
      match sock_user s with
      | Some u => f s u
      | None => ret tt
      end ;;
      each_socket f rest
  end.

Definition sendInvite (invite : Invite) : M unit :=
  w <- get ;;
  each_socket
    (fun s u =>
       if decide (user_id u = invite_invitee invite)
       then emit (ToSocket (sock_id s)) "new-invite" (PInvite invite)
       else ret tt) (connected w).

Definition updateCurrentUser (userId : string) : M unit :=
  w <- get ;;
  each_socket
    (fun s u =>
       if decide (user_id u = userId)
       then w' <- get ;;
            emit (ToSocket (sock_id s)) "update-current-user"
              (PUser (findOneByUserId svc userId (db w')))
       else ret tt) (connected w).

(** The refreshed game goes to its room, its summary to everybody. *)
Definition broadcast_game (n : Z) : M unit :=
  game <- findOne_parsed n ;;
  sendGameToGameUsers game ;;
  emit ToAll "update-game" (PView (parseGameForAllUsers svc game)).

(** ** Presence: connect and disconnect

    [if (this.connectTimers[token]) return]: the test holds when the
    table has an entry for the token, and also when the token names an
    inherited property. *)

Definition handleConnection (client : Socket) : M unit :=
  let token := sock_token client in
  w <- get ;;
  match connectTimers w !! token with
  | Some _ => ret tt
  | None =>
      if inherited token then ret tt
      else
        h <- setTimeout (ClearConnect token) ;;
        modify (fun w =>
          set_connectTimers (<[token := h]> (connectTimers w)) w) ;;
        let userId := getUserIdByToken svc token in
        w <- get ;;
        match findOneByUserId svc userId (db w) with
        | None => ret tt
        | Some user =>
            match openedGame user with
            | None => ret tt
            | Some og =>
                join (sock_id client) (ref_id og) ;;
                w <- get ;;
                match disconnectTimers w !! user_id user with
                | Some h =>
                    clearTimeout h ;;
                    modify (fun w =>
                      set_disconnectTimers
                        (delete (user_id user) (disconnectTimers w)) w)
                | None =>
                    r <- log_create (mk_log "connect" user (ref_id og) None) ;;
                    match r with
                    | inl _ => throw
                    | inr _ => broadcast_game (ref_number og)
                    end
                end
            end
        end
  end.

Definition handleDisconnect (client : Socket) : M unit :=
  let token := sock_token client in
  let userId := getUserIdByToken svc token in
  w <- get ;;
  match findOneByUserId svc userId (db w) with
  | None => ret tt
  | Some user =>
      match openedGame user with
      | None => ret tt
      | Some _ =>
          h <- setTimeout (CommitDisconnect user client) ;;
          modify (fun w =>
            set_disconnectTimers (<[user_id user := h]> (disconnectTimers w)) w)
      end
  end.

(** The callbacks given to [setTimeout]. *)
Definition run_action (a : TimerAction) : M unit :=
  match a with
  | ClearConnect token =>
      modify (fun w => set_connectTimers (delete token (connectTimers w)) w)
  | CommitDisconnect user client =>
      match openedGame user with
      | None => throw
      | Some og =>
          r <- log_create (mk_log "disconnect" user (ref_id og) None) ;;
          match r with
          | inl _ => throw
          | inr _ =>
              leave (sock_id client) (ref_id og) ;;
              broadcast_game (ref_number og) ;;
              modify (fun w =>
                set_disconnectTimers
                  (delete (user_id user) (disconnectTimers w)) w)
          end
      end
  end.

(** ** The event loop's timer phase

    A due timer fires once, if it is still pending; an exception in its
    callback is not caught by anything and the loop goes on. *)
Definition fire (tm : Timer) (w : World) : World :=
  if decide (timer_id tm ∈ map timer_id (pending w)) then
    snd (run_action (timer_action tm)
           (set_timers (next_timer w)
              (filter (fun x => timer_id x ≠ timer_id tm) (pending w)) w))
  else w.

Definition due (t : Z) (w : World) : list Timer :=
  filter (fun tm => fire_at tm <= t) (pending w).

Definition advance (t : Z) (w : World) : World :=
  set_now t (fold_left (fun w tm => fire tm w) (due t w) w).

(** ** Commands *)

(** A [WsResponse], or nothing when the handler returns [undefined]. *)
Definition Response : Type := option (string * Payload).

Definition getAllGames (filterSettings : string) : M Response :=
  w <- get ;;
  ret (Some ("all-games", PGames (gs_getAllGames svc filterSettings (db w)))).

Definition getOpenedGame (client : Socket) : M Response :=
  match sock_user client with
  | None => ret None
  | Some user =>
      match openedGame user, currentWatch user with
      | None, None => ret None
      | Some ref, _ | None, Some ref =>
          game <- findOne_parsed (ref_number ref) ;;
          join (sock_id client) (game_id game) ;;
          ret (Some ("update-opened-game",
                     PView (parseGameForUser svc game user)))
      end
  end.

Definition joinGame (client : Client) (gameNumber : Z) : M unit :=
  r <- call (gs_joinGame svc (client_user client) gameNumber) ;;
  match r with
  | inl e =>
      emit (ToSocket (client_id client)) "" PNothing ;; sendError_response client e
  | inr game =>
      l <- log_create (mk_log "join" (client_user client) (game_id game) None) ;;
      match l with
      | inl e => sendError_response client e
      | inr _ =>
          join (client_id client) (game_id game) ;;
          broadcast_game (game_number game)
      end
  end.

Definition newGame (client : Client) (name : string) : M (option Game) :=
  r <- call (gs_newGame svc name (user_id (client_user client))) ;;
  match r with
  | inl e => sendError_response client e ;; ret None
  | inr game =>
      l <- log_create (mk_log "create" (client_user client) (game_id game) None) ;;
      match l with
      | inl e => sendError_response client e ;; ret None
      | inr _ =>
          emit ToAll "new-game" (PView (parseGameForAllUsers svc game)) ;;
          joinGame client (game_number game) ;;
          ret (Some game)
      end
  end.

Definition openGame (client : Client) (gameNumber : Z) : M unit :=
  r <- call (gs_openGame svc (client_user client) gameNumber) ;;
  match r with
  | inl e => sendError_response client e
  | inr game =>
      l <- log_create (mk_log "open" (client_user client) (game_id game) None) ;;
      match l with
      | inl e => sendError_response client e
      | inr _ =>
          join (client_id client) (game_id game) ;;
          broadcast_game (game_number game)
      end
  end.

Definition watchGame (client : Client) (gameNumber : Z) : M unit :=
  r <- call (gs_watchGame svc (client_user client) gameNumber) ;;
  match r with
  | inl e => sendError_response client e
  | inr game =>
      l <- log_create (mk_log "watch" (client_user client) (game_id game) None) ;;
      match l with
      | inl e => sendError_response client e
      | inr _ =>
          join (client_id client) (game_id game) ;;
          broadcast_game (game_number game)
      end
  end.

Definition leaveGame (client : Client) (gameNumber : Z) : M Response :=
  r <- call (gs_leaveGame svc (client_user client) gameNumber) ;;
  match r with
  | inl e => sendError_response client e ;; ret None
  | inr game =>
      l <- log_create (mk_log "leave" (client_user client) (game_id game) None) ;;
      match l with
      | inl e => sendError_response client e ;; ret None
      | inr _ =>
          leave (client_id client) (game_id game) ;;
          broadcast_game (game_number game) ;;
          ret (Some ("update-opened-game", PNull))
      end
  end.

Definition closeGame (client : Client) : M Response :=
  match openedGame (client_user client) with
  | None =>
      sendError client "You don't have opened game to close" ;; ret None
  | Some og =>
      r <- call (gs_closeGame svc (client_user client) (ref_number og)) ;;
      match r with
      | inl e => sendError_response client e ;; ret None
      | inr game =>
          l <- log_create
                 (mk_log "close" (client_user client) (game_id game) None) ;;
          match l with
          | inl e => sendError_response client e ;; ret None
          | inr _ =>
              leave (client_id client) (game_id game) ;;
              broadcast_game (game_number game) ;;
              ret (Some ("update-opened-game", PNull))
          end
      end
  end.

(** [game] is read before the removal; when there is none, [game.id]
    throws inside the second [try] and again inside its [catch]. *)
Definition removeGame (client : Client) (gameNumber : Z) : M unit :=
  w <- get ;;
  let game := findOne svc gameNumber (db w) in
  r <- call_ (gs_removeGame svc (client_user client) gameNumber) tt ;;
  match r with
  | inl e => sendError_response client e
  | inr _ =>
      match game with
      | None => throw
      | Some game =>
          c <- call_ (inviteService_closeInvites svc (game_id game)) tt ;;
          match c with
          | inl e => sendError_response client e
          | inr _ =>
              kickUsersFromGame game ;;
              emit ToAll "remove-game" (PGameNumber gameNumber)
          end
      end
  end.

(** The [forEach] over the players of the old game: a callback that
    fails (no new game, or a rejected invite) is a rejected promise that
    nobody awaits.  The callbacks are run one after the other, before the
    update of the current user. *)
Fixpoint invite_players (client : Client) (newGame : option Game)
  (players : list string) : M unit :=
  match players with
  | [] => ret tt
  | player :: rest =>
      (if decide (player = user_id (client_user client)) then ret tt
       else
         match newGame with
         | None => ret tt
         | Some ng =>
             i <- call (inviteService_create svc (game_id ng)
                          (client_user client) player) ;;
             match i with
             | inl _ => ret tt
             | inr invite => sendInvite invite
             end
         end) ;;
      invite_players client newGame rest
  end.

Definition repeatGame (client : Client) (gameNumber : Z) : M unit :=
  w <- get ;;
  let game := findOne svc gameNumber (db w) in
  closeGame client ;;
  match game with
  | None => throw
  | Some game =>
      ng <- newGame client (game_name game) ;;
      invite_players client ng (game_players game) ;;
      updateCurrentUser (user_id (client_user client))
  end.

Definition add_log (log : LogEntry) (game : Game) : Game :=
  {| game_id := game_id game; game_number := game_number game;
     game_name := game_name game; game_state := game_state game;
     game_players := game_players game; game_logs := log :: game_logs game |}.

Definition toggleReady (client : Client) : M unit :=
  match openedGame (client_user client) with
  | None =>
      sendError client "You don't have opened game to toggle ready status"
  | Some og =>
      r <- call (gs_toggleReady svc (client_user client) (ref_number og)) ;;
      match r with
      | inl e => sendError_response client e
      | inr game =>
          l <- log_create
                 (mk_log "ready" (client_user client) (game_id game) None) ;;
          match l with
          | inl e => sendError_response client e
          | inr log => sendGameToGameUsers (add_log log game)
          end
      end
  end.

Definition updateOption (client : Client) (gameNumber : Z)
  (name value : string) : M unit :=
  r <- call (gs_updateOption svc (client_user client) gameNumber name value) ;;
  match r with
  | inl e => sendError_response client e
  | inr game =>
      l <- log_create (mk_log "update" (client_user client) (game_id game) None) ;;
      match l with
      | inl e => sendError_response client e
      | inr log => sendGameToGameUsers (add_log log game)
      end
  end.

Definition startGame (client : Client) (gameNumber : Z) : M unit :=
  r <- call (gs_startGame svc gameNumber) ;;
  match r with
  | inl e => sendError_response client e
  | inr game =>
      l <- log_create (mk_log "start" (client_user client) (game_id game) None) ;;
      match l with
      | inl e => sendError_response client e
      | inr _ =>
          c <- call_ (inviteService_closeInvites svc (game_id game)) tt ;;
          match c with
          | inl e => sendError_response client e
          | inr _ => broadcast_game (game_number game)
          end
      end
  end.

(** [currentGames.some(currentGame => currentGame.number === gameNumber)] *)
Definition is_current_game (user : User) (gameNumber : Z) : bool :=
  match currentGames user with
  | None => false
  | Some gs => existsb (fun g => ref_number g =? gameNumber) gs
  end.

Definition NOT_A_PLAYER : string :=
  "You can't make move if you are not this game player".

(** The second log of a move: only when the game came back finished. *)
Definition finish_log (client : Client) (game : Game) : M (option Failure) :=
  if game_state game =? GAME_FINISHED svc then
    l <- log_create (mk_log "finish" (client_user client) (game_id game) None) ;;
    match l with
    | inl e => ret (Some e)
    | inr _ => ret None
    end
  else ret None.

Definition move (client : Client) (gameNumber : Z) (mv : string) : M unit :=
  if negb (is_current_game (client_user client) gameNumber) then
    sendError client NOT_A_PLAYER
  else
    r <- call (gs_makeMove svc mv gameNumber (user_id (client_user client))) ;;
    match r with
    | inl e => sendError_response client e
    | inr game =>
        l <- log_create
               (mk_log "move" (client_user client) (game_id game) (Some mv)) ;;
        match l with
        | inl e => sendError_response client e
        | inr _ =>
            f <- finish_log client game ;;
            match f with
            | Some e => sendError_response client e
            | None =>
                game <- findOne_parsed (game_number game) ;;
                sendGameToGameUsers game ;;
                if game_state game =? GAME_FINISHED svc then
                  emit ToAll "update-game"
                    (PView (parseGameForAllUsers svc game))
                else ret tt
            end
        end
    end.

Definition acceptInvite (client : Client) (inviteId : string) : M unit :=
  r <- call (inviteService_closeInvite svc inviteId true) ;;
  match r with
  | inl e => sendError_response client e
  | inr invite => joinGame client (ref_number (invite_game invite))
  end.

Definition declineInvite (client : Client) (inviteId : string) : M unit :=
  r <- call (inviteService_closeInvite svc inviteId false) ;;
  match r with
  | inl e => sendError_response client e
  | inr _ => ret tt
  end.

(** ** The entry points of the game action coordinator *)

Inductive Command :=
| NewGame (name : string)
| JoinGame (gameNumber : Z)
| OpenGame (gameNumber : Z)
| WatchGame (gameNumber : Z)
| LeaveGame (gameNumber : Z)
| CloseGame
| RemoveGame (gameNumber : Z)
| ToggleReady
| UpdateOption (gameNumber : Z) (name value : string)
| StartGame (gameNumber : Z)
| MakeMove (gameNumber : Z) (mv : string).

Definition handle (cmd : Command) (client : Client) : M unit :=
  match cmd with
  | NewGame name => newGame client name ;; ret tt
  | JoinGame n => joinGame client n
  | OpenGame n => openGame client n
  | WatchGame n => watchGame client n
  | LeaveGame n => leaveGame client n ;; ret tt
  | CloseGame => closeGame client ;; ret tt
  | RemoveGame n => removeGame client n
  | ToggleReady => toggleReady client
  | UpdateOption n name value => updateOption client n name value
  | StartGame n => startGame client n
  | MakeMove n mv => move client n mv
  end.

(** ** Well-formed timers

    Handles are handed out in increasing order, so every handle in use
    is below the next one; a pending guard timer is the one its token's
    entry points to. *)
Record timers_ok (w : World) : Prop := {
  pending_fresh :
    forall tm, tm ∈ pending w -> (timer_id tm < next_timer w)%nat;
  disconnect_fresh :
    forall k h, disconnectTimers w !! k = Some h -> (h < next_timer w)%nat;
  guard_pending :
    forall tm k, tm ∈ pending w -> timer_action tm = ClearConnect k ->
                 connectTimers w !! k = Some (timer_id tm)
}.

(** The guard timer that a connect installs. *)
Definition guard_timer (token : string) (w : World) : Timer :=
  {| timer_id := next_timer w; fire_at := now w + TIMEOUT;
     timer_action := ClearConnect token |}.



(** ** Reading the outcome of a command *)

Definition is_error (e : Emission) : bool :=
  String.eqb (em_event e) "error-message".

(** The number of ["error-message"]s in a list of emissions. *)
Definition errors (o : list Emission) : nat :=
  length (List.filter is_error o).

(** The types of the log entries of a command that goes through. *)
Definition expected_logs (cmd : Command) (c : Client) (d : DB) : list string :=
  match cmd with
  | NewGame _ => ["create"; "join"]
  | JoinGame _ => ["join"]
  | OpenGame _ => ["open"]
  | WatchGame _ => ["watch"]
  | LeaveGame _ => ["leave"]
  | CloseGame => ["close"]
  | RemoveGame _ => []
  | ToggleReady => ["ready"]
  | UpdateOption _ _ _ => ["update"]
  | StartGame _ => ["start"]
  | MakeMove n mv =>
      match gs_makeMove svc mv n (user_id (client_user c)) d with
      | inr (game, _) =>
          if game_state game =? GAME_FINISHED svc then ["move"; "finish"]
          else ["move"]
      | inl _ => []
      end
  end.

(** ** The event loop *)

Inductive Event :=
| Connect (client : Socket)
| Disconnect (client : Socket)
| Message (client : Client) (cmd : Command).

(** What the socket server has done by the time it calls the gateway: a
    new socket is in the table of the connected sockets and in the room
    of its own id before [handleConnection] runs; a closing socket has
    left all its rooms and the table before [handleDisconnect] runs. *)
Definition leave_all (sid : string) (r : gmap string (list string))
  : gmap string (list string) :=
  omap (fun l => match filter (fun s => s ≠ sid) l with
                 | [] => None
                 | l' => Some l'
                 end) r.

Definition socket_opens (client : Socket) (w : World) : World :=
  set_rooms (room_add (sock_id client) (sock_id client) (rooms w))
    (set_connected (connected w ++ [client]) w).

Definition socket_closes (client : Socket) (w : World) : World :=
  set_rooms (leave_all (sock_id client) (rooms w))
    (set_connected
       (filter (fun s => sock_id s ≠ sock_id client) (connected w)) w).

Definition step (w : World) (e : Z * Event) : World :=
  let w := advance (fst e) w in
  match snd e with
  | Connect c => snd (handleConnection c (socket_opens c w))
  | Disconnect c => snd (handleDisconnect c (socket_closes c w))
  | Message c cmd => snd (handle cmd c w)
  end.

Definition run (es : list (Z * Event)) (w : World) : World :=
  fold_left step es w.

(** ** Every inbound message *)

Inductive Inbound :=
| Coordinator (cmd : Command)
| RepeatGame (gameNumber : Z)
| AcceptInvite (inviteId : string)
| DeclineInvite (inviteId : string)
| GetAllGames (filterSettings : string)
| GetOpenedGame.

Definition receive (m : Inbound) (c : Client) : M unit :=
  match m with
  | Coordinator cmd => handle cmd c
  | RepeatGame n => repeatGame c n
  | AcceptInvite i => acceptInvite c i
  | DeclineInvite i => declineInvite c i
  | GetAllGames f => getAllGames f ;; ret tt
  | GetOpenedGame => getOpenedGame (socket_of c) ;; ret tt
  end.





(** The call to the game service that a command makes before it logs,
    in a given store; [None] when the handler does not get as far as the
    call, or makes one that returns no game. *)
Definition mutation (cmd : Command) (c : Client) (d : DB)
  : option (Failure + Game * DB) :=
  let u := client_user c in
  match cmd with
  | NewGame name => Some (gs_newGame svc name (user_id u) d)
  | JoinGame n => Some (gs_joinGame svc u n d)
  | OpenGame n => Some (gs_openGame svc u n d)
  | WatchGame n => Some (gs_watchGame svc u n d)
  | LeaveGame n => Some (gs_leaveGame svc u n d)
  | CloseGame =>
      match openedGame u with
      | Some og => Some (gs_closeGame svc u (ref_number og) d)
      | None => None
      end
  | RemoveGame _ => None
  | ToggleReady =>
      match openedGame u with
      | Some og => Some (gs_toggleReady svc u (ref_number og) d)
      | None => None
      end
  | UpdateOption n name value => Some (gs_updateOption svc u n name value d)
  | StartGame n => Some (gs_startGame svc n d)
  | MakeMove n mv =>
      if is_current_game u n
      then Some (gs_makeMove svc mv n (user_id u) d)
      else None
  end.

(** The entry a command asks the log service for, once the game service
    has returned [game]. *)
Definition command_log (cmd : Command) (c : Client) (game : Game)
  : option LogEntry :=
  let entry type text :=
    Some (mk_log type (client_user c) (game_id game) text) in
  match cmd with
  | NewGame _ => entry "create" None
  | JoinGame _ => entry "join" None
  | OpenGame _ => entry "open" None
  | WatchGame _ => entry "watch" None
  | LeaveGame _ => entry "leave" None
  | CloseGame => entry "close" None
  | RemoveGame _ => None
  | ToggleReady => entry "ready" None
  | UpdateOption _ _ _ => entry "update" None
  | StartGame _ => entry "start" None
  | MakeMove _ mv => entry "move" (Some mv)
  end.

(** The sockets of a user: those whose attached user has the given id. *)
Definition socket_of_user (userId : string) (s : Socket) : bool :=
  match sock_user s with
  | Some u => bool_decide (user_id u = userId)
  | None => false
  end.

Definition invite_message (invite : Invite) (s : Socket) : Emission :=
  {| em_target := ToSocket (sock_id s); em_event := "new-invite";
     em_data := PInvite invite |}.

Definition current_user_message (userId : string) (d : DB) (s : Socket)
  : Emission :=
  {| em_target := ToSocket (sock_id s); em_event := "update-current-user";
     em_data := PUser (findOneByUserId svc userId d) |}.

(** ** The tables and the timers agree

    Beyond [timers_ok]: handles are not shared between pending timers,
    every entry of the connect table has its clearing timer pending, and a
    handle of the disconnect table is never the handle of a clearing
    timer. *)
Record presence_ok (w : World) : Prop := {
  presence_timers : timers_ok w;
  presence_nodup : NoDup (map timer_id (pending w));
  guard_has_timer :
    forall k h, connectTimers w !! k = Some h ->
      exists tm, tm ∈ pending w /\ timer_id tm = h /\
                 timer_action tm = ClearConnect k;
  disconnect_handle_kind :
    forall k tm, disconnectTimers w !! k = Some (timer_id tm) ->
      tm ∈ pending w ->
      exists u c, timer_action tm = CommitDisconnect u c
}.

(** The messages that never ask the log service for anything. *)
Definition writes_no_log (m : Inbound) : bool :=
  match m with
  | Coordinator (RemoveGame _) | DeclineInvite _ | GetAllGames _
  | GetOpenedGame => true
  | _ => false
  end.

(** The commands that make the caller enter the room of the game, and
    those that make it leave. *)
Definition enters_room (cmd : Command) : bool :=
  match cmd with
  | JoinGame _ | OpenGame _ | WatchGame _ => true
  | _ => false
  end.

Definition leaves_room (cmd : Command) : bool :=
  match cmd with
  | LeaveGame _ | CloseGame => true
  | _ => false
  end.

(** The members of a room of the adapter. *)
Definition members (room : string) (r : gmap string (list string))
  : list string :=
  default [] (r !! room).

End Gateway.

(** ** A small concrete installation

    Two users, two games; the store is the list of the operations that
    are to fail, so that each failure path can be run. *)
Module Toy.

Definition game7_ref : GameRef := {| ref_id := "g7"; ref_number := 7 |}.

Definition alice : User :=
  {| user_id := "alice"; openedGame := Some game7_ref; currentWatch := None;
     currentGames := Some [game7_ref] |}.

Definition bob : User :=
  {| user_id := "bob"; openedGame := None; currentWatch := None;
     currentGames := None |}.

Definition game7 : Game :=
  {| game_id := "g7"; game_number := 7; game_name := "seven"; game_state := 1;
     game_players := ["alice"; "bob"]; game_logs := [] |}.

Definition game7_finished : Game :=
  {| game_id := "g7"; game_number := 7; game_name := "seven"; game_state := 2;
     game_players := ["alice"; "bob"]; game_logs := [] |}.

Definition game8 : Game :=
  {| game_id := "g8"; game_number := 8; game_name := "seven"; game_state := 0;
     game_players := []; game_logs := [] |}.

Definition rejects (op : string) (d : list string) : bool :=
  bool_decide (op ∈ d).

(** An operation named with a [!] in front fails with an error that has
    no response. *)
Definition breaks (op : string) (d : list string) : bool :=
  bool_decide (("!" ++ op)%string ∈ d).

Definition guarded {A} (op : string) (a : A) (d : list string)
  : Failure + (A * list string) :=
  if rejects op d then inl (Rejected (op ++ " rejected")%string)
  else if breaks op d then inl Failed
  else inr (a, d).

Definition guarded_ (op : string) (d : list string) : Failure + list string :=
  if rejects op d then inl (Rejected (op ++ " rejected")%string)
  else if breaks op d then inl Failed
  else inr d.

Definition services : @Services (list string) string :=
  {| GAME_FINISHED := 2;
     getUserIdByToken := fun token =>
       if bool_decide (token = "token-alice") then "alice"
       else if bool_decide (token = "token-bob") then "bob" else "";
     findOneByUserId := fun uid _ =>
       if bool_decide (uid = "alice") then Some alice
       else if bool_decide (uid = "bob") then Some bob else None;
     token_is_jwt := ltac:(
       intros token d H; apply bool_decide_eq_true_1 in H;
       repeat (apply elem_of_cons in H as [->|H]; [reflexivity|]);
       inversion H);
     findOne := fun n _ =>
       if n =? 7 then Some game7 else if n =? 8 then Some game8 else None;
     gs_getAllGames := fun _ _ => ["g7"; "g8"];
     parseGameForUser := fun g u => (game_id g ++ " for " ++ user_id u)%string;
     parseGameForAllUsers := fun g => game_id g;
     gs_newGame := fun _ _ => guarded "newGame" game8;
     gs_joinGame := fun _ n =>
       guarded "joinGame" (if n =? 8 then game8 else game7);
     gs_openGame := fun _ _ => guarded "openGame" game7;
     gs_watchGame := fun _ _ => guarded "watchGame" game7;
     gs_leaveGame := fun _ _ => guarded "leaveGame" game7;
     gs_closeGame := fun _ _ => guarded "closeGame" game7;
     gs_removeGame := fun _ _ => guarded_ "removeGame";
     gs_toggleReady := fun _ _ => guarded "toggleReady" game7;
     gs_updateOption := fun _ _ _ _ => guarded "updateOption" game7;
     gs_startGame := fun _ => guarded "startGame" game7;
     gs_makeMove := fun mv _ _ =>
       guarded "makeMove"
         (if bool_decide (mv = "win") then game7_finished else game7);
     logService_create := fun _ => guarded_ "log";
     inviteService_create := fun gid _ invitee =>
       guarded "invite"
         {| invite_id := "i1";
            invite_game := {| ref_id := gid; ref_number := 8 |};
            invite_invitee := invitee |};
     inviteService_closeInvite := fun iid _ =>
       guarded "closeInvite"
         {| invite_id := iid; invite_game := game7_ref;
            invite_invitee := "bob" |};
     inviteService_closeInvites := fun _ => guarded_ "closeInvites" |}.

Definition alice_tab1 : Socket :=
  {| sock_id := "s1"; sock_token := "token-alice"; sock_user := Some alice |}.
Definition alice_tab2 : Socket :=
  {| sock_id := "s2"; sock_token := "token-alice"; sock_user := Some alice |}.
Definition bob_tab : Socket :=
  {| sock_id := "s3"; sock_token := "token-bob"; sock_user := Some bob |}.
Definition guest_tab : Socket :=
  {| sock_id := "s4"; sock_token := ""; sock_user := None |}.

Definition alice_client : Client :=
  {| client_id := "s1"; client_token := "token-alice"; client_user := alice |}.

(** Nothing pending, nobody in a room, the given sockets connected. *)
Definition world (d : list string) (ss : list Socket)
  (r : gmap string (list string)) : @World (list string) string :=
  {| db := d; now := 0; next_timer := 0; pending := [];
     connectTimers := ∅; disconnectTimers := ∅;
     connected := ss; rooms := r; logs := []; outbox := [] |}.

(** Alice has two tabs and Bob one, all connected; nobody is in a room. *)
Definition lobby (d : list string) : @World (list string) string :=
  world d [alice_tab1; alice_tab2; bob_tab] ∅.

(** Alice's first tab and Bob's tab are in the room of game 7. *)
Definition table7 (d : list string) : @World (list string) string :=
  world d [alice_tab1; alice_tab2; bob_tab]
    {[ "g7" := ["s1"; "s3"] ]}.

End Toy.

(** * The schemas: [toJSON] / [toObject]

    [transform] works on the plain object [ret] that is about to be
    returned: a map from property names to values, where reading a
    missing property gives [undefined]. *)
Section Schema.

Context {V : Type} (undefined : V).

Definition transform (ret : gmap string V) : gmap string V :=
  let ret := <["id" := default undefined (ret !! "_id")]> ret in
  let ret := delete "_id" ret in
  delete "__v" ret.

End Schema.

(** * The user controller: validation of the input

    The three patterns of the controller are regular expressions in the
    strict sense; [RegExp.prototype.test] is modelled by derivatives.
    Strings are taken as sequences of bytes; the character classes of the
    patterns only hold ASCII characters. *)

Inductive re :=
| Void
| Eps
| Chr (p : Ascii.ascii -> bool)
| Cat (r1 r2 : re)
| Alt (r1 r2 : re)
| Star (r : re).

Fixpoint nullable (r : re) : bool :=
  match r with
  | Void => false
  | Eps => true
  | Chr _ => false
  | Cat r1 r2 => nullable r1 && nullable r2
  | Alt r1 r2 => nullable r1 || nullable r2
  | Star _ => true
  end.

(** Concatenation and alternation that drop what cannot match. *)
Definition cat (r1 r2 : re) : re :=
  match r1, r2 with
  | Void, _ => Void
  | _, Void => Void
  | Eps, _ => r2
  | _, Eps => r1
  | _, _ => Cat r1 r2
  end.

Definition alt (r1 r2 : re) : re :=
  match r1, r2 with
  | Void, _ => r2
  | _, Void => r1
  | _, _ => Alt r1 r2
  end.

(** What is left of [r] to match once [a] has been read. *)
Fixpoint deriv (a : Ascii.ascii) (r : re) : re :=
  match r with
  | Void => Void
  | Eps => Void
  | Chr p => if p a then Eps else Void
  | Cat r1 r2 =>
      if nullable r1 then alt (cat (deriv a r1) r2) (deriv a r2)
      else cat (deriv a r1) r2
  | Alt r1 r2 => alt (deriv a r1) (deriv a r2)
  | Star r => cat (deriv a r) (Star r)
  end.

(** The whole of [s] matches [r]: the pattern [^r$]. *)
Fixpoint matches (r : re) (s : list Ascii.ascii) : bool :=
  match s with
  | [] => nullable r
  | a :: s => matches (deriv a r) s
  end.

Definition any : re := Chr (fun _ => true).

(** [r.test(s)] for a pattern without anchors: some part of [s] matches. *)
Definition test (r : re) (s : string) : bool :=
  matches (Cat (Star any) (Cat r (Star any))) (String.list_ascii_of_string s).

(** [r.test(s)] for a pattern of the form [^r$]. *)
Definition test_anchored (r : re) (s : string) : bool :=
  matches r (String.list_ascii_of_string s).

Definition plus (r : re) : re := Cat r (Star r).
Definition opt (r : re) : re := Alt Eps r.

(** [r{n}], up to [k] times [r], and [r{m,n}] *)
Fixpoint rep (n : nat) (r : re) : re :=
  match n with
  | O => Eps
  | S n => Cat r (rep n r)
  end.

Fixpoint upto (k : nat) (r : re) : re :=
  match k with
  | O => Eps
  | S k => opt (Cat r (upto k r))
  end.

Definition rep_range (m n : nat) (r : re) : re :=
  Cat (rep m r) (upto (n - m) r).

Definition in_range (lo hi : Ascii.ascii) (a : Ascii.ascii) : bool :=
  (Ascii.nat_of_ascii lo <=? Ascii.nat_of_ascii a)%nat && (Ascii.nat_of_ascii a <=? Ascii.nat_of_ascii hi)%nat.

Definition is_digit : Ascii.ascii -> bool := in_range "0"%char "9"%char.
Definition is_letter (a : Ascii.ascii) : bool := in_range "a"%char "z"%char a || in_range "A"%char "Z"%char a.
(** [[0-9a-zA-Z]] *)
Definition is_alnum (a : Ascii.ascii) : bool := is_digit a || is_letter a.
Definition is_char (c : Ascii.ascii) (a : Ascii.ascii) : bool := Ascii.eqb a c.

(** ['[0-9a-zA-Z]{3,30}'] *)
Definition usernameRegexp : re := rep_range 3 30 (Chr is_alnum).
(** ['[0-9a-zA-Z]{6,30}'] *)
Definition passwordRegexp : re := rep_range 6 30 (Chr is_alnum).

(** [^([a-zA-Z0-9_\-.]+)@((\[[0-9]{1,3}\.[0-9]{1,3}\.[0-9]{1,3}\.)|(([a-zA-Z0-9-]+\.)+))([a-zA-Z]{2,4}|[0-9]{1,3})(\]?)$] *)
Definition emailRegexp : re :=
  let local := Chr (fun a => is_alnum a || is_char "_"%char a || is_char "-"%char a
                             || is_char "."%char a) in
  let dot := Chr (is_char "."%char) in
  let octet := rep_range 1 3 (Chr is_digit) in
  let address :=
    Cat (Chr (is_char "["%char)) (Cat octet (Cat dot (Cat octet (Cat dot
      (Cat octet dot))))) in
  let label := Chr (fun a => is_alnum a || is_char "-"%char a) in
  let domain := plus (Cat (plus label) dot) in
  Cat (plus local)
    (Cat (Chr (is_char "@"%char))
       (Cat (Alt address domain)
          (Cat (Alt (rep_range 2 4 (Chr is_letter)) (rep_range 1 3 (Chr is_digit)))
             (opt (Chr (is_char "]"%char)))))).

(** The words of a pattern. *)
Inductive lang : re -> list Ascii.ascii -> Prop :=
| lang_eps : lang Eps []
| lang_chr p a : p a = true -> lang (Chr p) [a]
| lang_cat r1 r2 s1 s2 : lang r1 s1 -> lang r2 s2 -> lang (Cat r1 r2) (s1 ++ s2)
| lang_alt_l r1 r2 s : lang r1 s -> lang (Alt r1 r2) s
| lang_alt_r r1 r2 s : lang r2 s -> lang (Alt r1 r2) s
| lang_star_nil r : lang (Star r) []
| lang_star_cons r s1 s2 :
    lang r s1 -> lang (Star r) s2 -> lang (Star r) (s1 ++ s2).

(** * The user controller *)

(** The fields of a user that the controller reads. *)
Record Account := {
  acc_id : string;
  acc_email : string;
  acc_isConfirmed : bool
}.

(** The argument of [userService.create] in [register]. *)
Record NewAccount := {
  new_username : string;
  new_password : string;
  new_email : string;
  new_country : string
}.

Inductive MailKind := RegistrationMail | ResetPasswordMail.

Record Mail := {
  mail_kind : MailKind;
  mail_id : string;
  mail_email : string
}.

Inductive Exception :=
| CreatingUserException (message : string)
| ActivationUserException (message : string)
| Unhandled (message : string).

Inductive Result (A : Type) :=
| Returns (a : A)
| Throws (e : Exception).
Arguments Returns {A} a.
Arguments Throws {A} e.

Section Controller.

Context {UDB : Type}.

(** The collaborators of the controller; a call that fails carries the
    [message] of its error.  [um_confirm] is the
    [userModel.findOneAndUpdate] that sets [isConfirmed]. *)
Record UserServices := {
  us_findOneById : string -> UDB -> string + option Account;
  us_findOneByUsername : string -> UDB -> string + option Account;
  us_findManyByUsername : string -> UDB -> string + list Account;
  us_create : NewAccount -> UDB -> string + (Account * UDB);
  us_updatePassword : string -> string -> UDB -> string + UDB;
  um_confirm : string -> UDB -> string + UDB;
  jwt_getUserIdByToken : string -> string -> string + string;
  jwt_generateToken : string -> string -> string;
  geo_getFlag : string -> string + string;
  emailService_send : Mail -> UDB -> string + unit
}.

(** The store of the users and the mail sent so far, oldest first. *)
Record Site := {
  users : UDB;
  sent : list Mail
}.

(** A handler of the controller: it returns or throws; an error that
    the handler does not catch is [Unhandled]. *)
Definition Action (A : Type) : Type := Site -> Result A * Site.

Context (usvc : UserServices).

Definition EMAIL_ERROR : string :=
  "Error sending email, please contact administration to support".

Definition send_mail (m : Mail) (st : Site) : (string + unit) * Site :=
  match emailService_send usvc m (users st) with
  | inl e => (inl e, st)
  | inr _ => (inr tt, {| users := users st; sent := sent st ++ [m] |})
  end.

(** [!s] for a string. *)
Definition missing (s : string) : bool :=
  match s with
  | String.EmptyString => true
  | _ => false
  end.

(** The country of a registration: the flag of the address, or nothing
    when the lookup fails. *)
Definition country_of (ip : string) : string :=
  match geo_getFlag usvc ip with
  | inr flag => flag
  | inl _ => ""
  end.

Definition registration_mail (user : Account) : Mail :=
  {| mail_kind := RegistrationMail; mail_id := acc_id user;
     mail_email := acc_email user |}.

Definition reset_mail (user : Account) : Mail :=
  {| mail_kind := ResetPasswordMail; mail_id := acc_id user;
     mail_email := acc_email user |}.

Definition register (username password email ip : string) : Action Account :=
  fun st =>
    if missing password || missing email || missing username then
      (Throws (CreatingUserException "All fields are are required!"), st)
    else
      let isUsernameOk := test usernameRegexp username in
      let isPasswordOk := test passwordRegexp password in
      let isEmailOk := test_anchored emailRegexp email in
      if negb isUsernameOk || negb isPasswordOk || negb isEmailOk then
        (Throws (CreatingUserException "Error fields validation!"), st)
      else
        let country :=
          match geo_getFlag usvc ip with
          | inr flag => flag
          | inl _ => ""
          end in
        match us_create usvc
                {| new_username := if missing username then email else username;
                   new_password := password; new_email := email;
                   new_country := country |} (users st) with
        | inl e => (Throws (CreatingUserException e), st)
        | inr (user, d) =>
            let st := {| users := d; sent := sent st |} in
            match send_mail {| mail_kind := RegistrationMail;
                               mail_id := acc_id user;
                               mail_email := acc_email user |} st with
            | (inl _, st) => (Throws (CreatingUserException EMAIL_ERROR), st)
            | (inr _, st) => (Returns user, st)
            end
        end.

Definition activate (activationToken : string) : Action string :=
  fun st =>
    match jwt_getUserIdByToken usvc activationToken "activate" with
    | inl e => (Throws (Unhandled e), st)
    | inr userId =>
        match us_findOneById usvc userId (users st) with
        | inl e => (Throws (Unhandled e), st)
        | inr None => (Throws (ActivationUserException "Invalid link!"), st)
        | inr (Some user) =>
            if acc_isConfirmed user then
              (Throws
                 (ActivationUserException "User has already been activated!"),
               st)
            else
              match um_confirm usvc (acc_id user) (users st) with
              | inl e => (Throws (Unhandled e), st)
              | inr d =>
                  (Returns (jwt_generateToken usvc (acc_id user) "7 days"),
                   {| users := d; sent := sent st |})
              end
        end
    end.

(** The reply of [forgotPassword]: [result] and the optional [message]. *)
Definition forgotPassword (username : string)
  : Action (string * option string) :=
  fun st =>
    match us_findOneByUsername usvc username (users st) with
    | inl e => (Throws (CreatingUserException e), st)
    | inr None => (Returns ("error", Some "User isn't found"), st)
    | inr (Some user) =>
        match send_mail {| mail_kind := ResetPasswordMail;
                           mail_id := acc_id user;
                           mail_email := acc_email user |} st with
        | (inl _, st) => (Throws (CreatingUserException EMAIL_ERROR), st)
        | (inr _, st) => (Returns ("success", None), st)
        end
    end.

Definition setPassword (setPasswordToken password : string) : Action string :=
  fun st =>
    if negb (test passwordRegexp password) then
      (Throws (CreatingUserException "Too week password!"), st)
    else
      match jwt_getUserIdByToken usvc setPasswordToken "reset" with
      | inl e => (Throws (Unhandled e), st)
      | inr userId =>
          match us_findOneById usvc userId (users st) with
          | inl e => (Throws (Unhandled e), st)
          | inr None => (Throws (ActivationUserException "Invalid link!"), st)
          | inr (Some user) =>
              match us_updatePassword usvc (acc_id user) password (users st) with
              | inl e => (Throws (Unhandled e), st)
              | inr d =>
                  (Returns (jwt_generateToken usvc (acc_id user) "7 days"),
                   {| users := d; sent := sent st |})
              end
          end
      end.

Definition getUsers (username : string) : Action (list Account) :=
  fun st =>
    if missing username then (Returns [], st)
    else
      match us_findManyByUsername usvc username (users st) with
      | inl e => (Throws (Unhandled e), st)
      | inr found => (Returns found, st)
      end.

End Controller.

(** [s] holds [n] characters in a row that all satisfy [p]. *)
Definition has_run (n : nat) (p : Ascii.ascii -> bool) (s : string) : Prop :=
  exists pre mid post,
    String.list_ascii_of_string s = pre ++ mid ++ post /\
    length mid = n /\ Forall (fun a => p a = true) mid.

(** The characters of the part of an address before the ["@"]. *)
Definition is_local (a : Ascii.ascii) : bool :=
  is_alnum a || is_char "_"%char a || is_char "-"%char a || is_char "."%char a.

(** A small user store: the list of the accounts, and the names of the
    operations that are to be rejected. *)
Module ToyUsers.

Definition carol : Account :=
  {| acc_id := "u1"; acc_email := "carol@example.org"; acc_isConfirmed := false |}.

Definition dave : Account :=
  {| acc_id := "u2"; acc_email := "dave@example.org"; acc_isConfirmed := true |}.

Definition find (id : string) (d : list Account * list string) : option Account :=
  List.find (fun a => bool_decide (acc_id a = id)) (fst d).

Definition services : @UserServices (list Account * list string) :=
  {| us_findOneById := fun id d =>
       if bool_decide ("findOneById" ∈ snd d) then inl "lookup failed"
       else inr (find id d);
     us_findOneByUsername := fun name d =>
       if bool_decide ("findOneByUsername" ∈ snd d) then inl "lookup failed"
       else inr (find name d);
     us_findManyByUsername := fun _ d => inr (fst d);
     us_create := fun n d =>
       if bool_decide ("create" ∈ snd d) then inl "create failed"
       else
         let a := {| acc_id := new_username n; acc_email := new_email n;
                     acc_isConfirmed := false |} in
         inr (a, (fst d ++ [a], snd d));
     us_updatePassword := fun _ _ d => inr d;
     um_confirm := fun id d =>
       if bool_decide ("confirm" ∈ snd d) then inl "update failed"
       else
         inr (map (fun a => if bool_decide (acc_id a = id)
                            then {| acc_id := acc_id a; acc_email := acc_email a;
                                    acc_isConfirmed := true |}
                            else a) (fst d), snd d);
     jwt_getUserIdByToken := fun token _ =>
       if bool_decide (token = "") then inl "jwt must be provided"
       else inr token;
     jwt_generateToken := fun id expires => (id +:+ " for " +:+ expires)%stdpp;
     geo_getFlag := fun ip =>
       if bool_decide (ip = "") then inl "no address" else inr "fr";
     emailService_send := fun _ d =>
       if bool_decide ("mail" ∈ snd d) then inl "mail failed" else inr tt |}.

Definition site (rejected : list string) : @Site (list Account * list string) :=
  {| users := ([carol; dave], rejected); sent := [] |}.

End ToyUsers.

(** * Properties *)

Section GatewayFacts.

Context {DB View : Type} (svc : @Services DB View).
Implicit Types (w : @World DB View) (client : Socket) (c : Client).

(** *** Emissions of the room loops *)

Lemma set_outbox_twice w (o1 o2 : list (@Emission View)) :
  set_outbox (outbox (set_outbox (outbox w ++ o1) w) ++ o2)
    (set_outbox (outbox w ++ o1) w)
  = set_outbox (outbox w ++ (o1 ++ o2)) w.
Proof. unfold set_outbox; simpl. now rewrite app_assoc. Qed.

Lemma set_outbox_nil w : set_outbox (outbox w ++ []) w = w.
Proof. destruct w; unfold set_outbox; simpl. now rewrite app_nil_r. Qed.

Lemma each_in_room_cons (f : string -> User -> M unit) mk sid rest w :
  (forall sid u w, f sid u w = (Done tt, set_outbox (outbox w ++ [mk sid u]) w)) ->
  each_in_room f (sid :: rest) w =
  match find_socket sid w with
  | None => (Thrown, w)
  | Some s =>
      match sock_user s with
      | Some u => each_in_room f rest (set_outbox (outbox w ++ [mk sid u]) w)
      | None => each_in_room f rest w
      end
  end.
Proof.
  intros Hf. cbn [each_in_room]. unfold bind, get, throw, ret.
  destruct (find_socket sid w) as [s|]; [|reflexivity].
  destruct (sock_user s); [now rewrite Hf | reflexivity].
Qed.

Lemma each_in_room_effect (f : string -> User -> M unit) mk sids :
  (forall sid u w, f sid u w = (Done tt, set_outbox (outbox w ++ [mk sid u]) w)) ->
  forall w, exists new,
    snd (each_in_room f sids w) = set_outbox (outbox w ++ new) w /\
    (forall e, e ∈ new -> e ∈ room_messages mk sids w) /\
    ((forall sid, sid ∈ sids -> is_Some (find_socket sid w)) ->
     fst (each_in_room f sids w) = Done tt /\ new = room_messages mk sids w).
Proof.
  intros Hf. induction sids as [|sid rest IH]; intros w.
  - exists []. cbn. rewrite set_outbox_nil. repeat split; auto.
  - rewrite (each_in_room_cons f mk) by exact Hf.
    cbn [room_messages omap list_omap].
    destruct (find_socket sid w) as [s|] eqn:Hs.
    + destruct (sock_user s) as [u|] eqn:Hu.
      * destruct (IH (set_outbox (outbox w ++ [mk sid u]) w))
          as (new & Hw & Hin & Hall).
        exists (mk sid u :: new). rewrite Hw.
        rewrite set_outbox_twice. split; [reflexivity|]. split.
        -- intros e He. apply elem_of_cons in He as [->|He];
             [left | right; exact (Hin _ He)].
        -- intros Hconn. destruct Hall as [Hd Hn].
           { intros x Hx. apply (Hconn x). now right. }
           split; [exact Hd|]. f_equal. exact Hn.
      * destruct (IH w) as (new & Hw & Hin & Hall).
        exists new. split; [exact Hw|]. split; [exact Hin|].
        intros Hconn. apply Hall. intros x Hx. apply Hconn. now right.
    + exists []. cbn [snd fst]. rewrite set_outbox_nil.
      split; [reflexivity|]. split; [intros e He; inversion He|].
      intros Hconn. destruct (Hconn sid) as [s Hs']; [now left|congruence].
Qed.

Lemma handleConnection_debounced client w h :
  connectTimers w !! sock_token client = Some h ->
  handleConnection svc client w = (Done tt, w).
Proof.
  intros Hguard. unfold handleConnection, bind, get. now rewrite Hguard.
Qed.

(** C5. A connect whose handshake token still has a connect-debounce
    entry returns at once, before the token is even looked up: the whole
    state is left as it was (no room joined, no log, nothing emitted, both
    timer maps and the pending timers untouched), so a pending disconnect
    timer of the same user fires later exactly as it would have. *)
Theorem debounced_connect_is_ignored client w h :
  connectTimers w !! sock_token client = Some h ->
  handleConnection svc client w = (Done tt, w) /\
  forall t, advance svc t (snd (handleConnection svc client w)) = advance svc t w.
Proof.
  intros Hguard. pose proof (handleConnection_debounced client w h Hguard) as Heq.
  split; [exact Heq|]. intros t. now rewrite Heq.
Qed.

Lemma elem_of_room_messages (mk : string -> User -> @Emission View) sids w e :
  e ∈ room_messages mk sids w <->
  exists sid s u, sid ∈ sids /\ find_socket sid w = Some s /\
                  sock_user s = Some u /\ e = mk sid u.
Proof.
  unfold room_messages. rewrite list_elem_of_omap. split.
  - intros (sid & Hin & He). destruct (find_socket sid w) as [s|] eqn:Hs;
      [|discriminate]. destruct (sock_user s) as [u|] eqn:Hu; [|discriminate].
    exists sid, s, u. repeat split; auto. congruence.
  - intros (sid & s & u & Hin & Hs & Hu & ->). exists sid.
    split; [exact Hin|]. now rewrite Hs, Hu.
Qed.

Lemma sendGameToGameUsers_effect game w :
  exists new,
    snd (sendGameToGameUsers svc game w) = set_outbox (outbox w ++ new) w /\
    (forall e, e ∈ new ->
       e ∈ room_messages (view_message svc game)
             (room_members (game_id game) w) w) /\
    ((forall sid, sid ∈ room_members (game_id game) w ->
                  is_Some (find_socket sid w)) ->
     fst (sendGameToGameUsers svc game w) = Done tt /\
     new = room_messages (view_message svc game)
             (room_members (game_id game) w) w).
Proof.
  unfold sendGameToGameUsers, room_members, bind, get.
  destruct (rooms w !! game_id game) as [sids|]; cbn [default].
  - apply each_in_room_effect. reflexivity.
  - exists []. cbn. rewrite set_outbox_nil. repeat split; auto.
Qed.

Lemma kickUsersFromGame_effect game w :
  exists new,
    snd (kickUsersFromGame game w) = set_outbox (outbox w ++ new) w /\
    (forall e, e ∈ new ->
       e ∈ room_messages kick_message (room_members (game_id game) w) w) /\
    ((forall sid, sid ∈ room_members (game_id game) w ->
                  is_Some (find_socket sid w)) ->
     fst (kickUsersFromGame game w) = Done tt /\
     new = room_messages kick_message (room_members (game_id game) w) w).
Proof.
  unfold kickUsersFromGame, room_members, bind, get.
  destruct (rooms w !! game_id game) as [sids|]; cbn [default].
  - apply each_in_room_effect. reflexivity.
  - exists []. cbn. rewrite set_outbox_nil. repeat split; auto.
Qed.

(** The socket that the server finds under an id is a connected socket
    with that id; and where socket ids are not shared, every connected
    socket is the one found under its id. *)
Lemma find_socket_Some sid w s :
  find_socket sid w = Some s -> s ∈ connected w /\ sock_id s = sid.
Proof.
  unfold find_socket. intros H. apply find_some in H as [Hin Hid].
  split; [now apply list_elem_of_In|]. now apply bool_decide_eq_true_1 in Hid.
Qed.

Lemma find_socket_own w s :
  NoDup (map sock_id (connected w)) -> s ∈ connected w ->
  find_socket (sock_id s) w = Some s.
Proof.
  unfold find_socket. induction (connected w) as [|x l IH]; intros Hnd Hin.
  - inversion Hin.
  - cbn [map] in Hnd. apply NoDup_cons in Hnd as [Hx Hnd]. cbn [find].
    apply elem_of_cons in Hin as [->|Hin].
    + now rewrite bool_decide_eq_true_2.
    + rewrite bool_decide_eq_false_2; [now apply IH|].
      intros Heq. apply Hx. rewrite Heq. apply list_elem_of_fmap. eauto.
Qed.

(** C9. A room-wide broadcast of a game, in a server whose sockets have
    distinct ids and where every member of the game's room is a connected
    socket: the broadcast goes through and only adds to the outbox; each
    connected socket that is in the room and has a user attached is sent
    the projection of the game for that very user; and nothing else is
    sent: every message is such a projection, addressed to a member of
    the room that has a user, so that a socket with no user attached and
    a socket that is not in the room get nothing. *)
Theorem room_broadcast_is_per_viewer game w :
  NoDup (map sock_id (connected w)) ->
  (forall sid, sid ∈ room_members (game_id game) w ->
               exists s, s ∈ connected w /\ sock_id s = sid) ->
  exists new,
    sendGameToGameUsers svc game w = (Done tt, set_outbox (outbox w ++ new) w) /\
    (forall s u,
       s ∈ connected w -> sock_id s ∈ room_members (game_id game) w ->
       sock_user s = Some u ->
       {| em_target := ToSocket (sock_id s); em_event := "update-opened-game";
          em_data := PView (parseGameForUser svc game u) |} ∈ new) /\
    (forall e, e ∈ new ->
       exists s u,
         s ∈ connected w /\ sock_id s ∈ room_members (game_id game) w /\
         sock_user s = Some u /\
         e = {| em_target := ToSocket (sock_id s);
                em_event := "update-opened-game";
                em_data := PView (parseGameForUser svc game u) |}) /\
    (forall s e,
       s ∈ connected w -> e ∈ new -> em_target e = ToSocket (sock_id s) ->
       sock_id s ∈ room_members (game_id game) w /\ is_Some (sock_user s)).
Proof.
  intros Hnd Hconn.
  assert (Hfound : forall sid, sid ∈ room_members (game_id game) w ->
                               is_Some (find_socket sid w)).
  { intros sid Hin. destruct (Hconn sid Hin) as (s & Hs & <-).
    exists s. now apply find_socket_own. }
  destruct (sendGameToGameUsers_effect game w) as (new & Hw & _ & Hall).
  destruct (Hall Hfound) as [Hd Hn].
  assert (Hsent : forall e, e ∈ new ->
       exists s u,
         s ∈ connected w /\ sock_id s ∈ room_members (game_id game) w /\
         sock_user s = Some u /\
         e = {| em_target := ToSocket (sock_id s);
                em_event := "update-opened-game";
                em_data := PView (parseGameForUser svc game u) |}).
  { intros e He. rewrite Hn in He. apply elem_of_room_messages in He.
    destruct He as (sid & s & u & Hin & Hs & Hu & ->).
    apply find_socket_Some in Hs as [Hs <-]. exists s, u. auto. }
  exists new. split; [|split; [|split]].
  - destruct (sendGameToGameUsers svc game w) as [r w']. cbn [fst snd] in *.
    now subst.
  - intros s u Hs Hin Hu. rewrite Hn. apply elem_of_room_messages.
    exists (sock_id s), s, u. split; [exact Hin|].
    split; [now apply find_socket_own|auto].
  - exact Hsent.
  - intros s e Hs He Ht. destruct (Hsent e He) as (s' & u & Hs' & Hin & Hu & ->).
    cbn in Ht. injection Ht as Hid.
    assert (s' = s) as ->.
    { pose proof (find_socket_own w s Hnd Hs) as H1.
      pose proof (find_socket_own w s' Hnd Hs') as H2.
      rewrite Hid in H2. congruence. }
    split; [exact Hin | eauto].
Qed.

(** C8. A make-move for a game number that is not among the caller's
    current games (or when the caller has no such list) is answered with
    the not-a-player error, sent to the caller alone; nothing else
    changes: the store is not touched (no mutation), no log entry is
    created and nothing is broadcast. *)
Theorem move_rejects_non_player c n mv w :
  (forall gs g, currentGames (client_user c) = Some gs -> g ∈ gs ->
                ref_number g <> n) ->
  move svc c n mv w =
    (Done tt, set_outbox (outbox w ++ [error_message c NOT_A_PLAYER]) w) /\
  db (snd (move svc c n mv w)) = db w /\
  logs (snd (move svc c n mv w)) = logs w /\
  rooms (snd (move svc c n mv w)) = rooms w.
Proof.
  intros Hnot.
  assert (is_current_game (client_user c) n = false) as Hcur.
  { unfold is_current_game. destruct (currentGames (client_user c)) as [gs|] eqn:E;
      [|reflexivity].
    apply not_true_is_false. intros Hex. apply existsb_exists in Hex.
    destruct Hex as (g & Hin & Heq). apply Z.eqb_eq in Heq.
    apply (Hnot gs g eq_refl); [now apply list_elem_of_In | exact Heq]. }
  assert (move svc c n mv w =
    (Done tt, set_outbox (outbox w ++ [error_message c NOT_A_PLAYER]) w)) as E.
  { unfold move. rewrite Hcur. reflexivity. }
  rewrite E. repeat split.
Qed.

(** C10. A connect by a user that the token resolves to and who has no
    opened game joins no room, creates no log entry and emits nothing
    (and does not touch the store), whether or not the connect passes the
    debounce guard. *)
Theorem connect_without_opened_game client w user :
  findOneByUserId svc (getUserIdByToken svc (sock_token client)) (db w)
    = Some user ->
  openedGame user = None ->
  fst (handleConnection svc client w) = Done tt /\
  rooms (snd (handleConnection svc client w)) = rooms w /\
  logs (snd (handleConnection svc client w)) = logs w /\
  outbox (snd (handleConnection svc client w)) = outbox w /\
  db (snd (handleConnection svc client w)) = db w.
Proof.
  intros Huser Hopen. unfold handleConnection, bind, get.
  destruct (connectTimers w !! sock_token client); [repeat split|].
  destruct (inherited (sock_token client)); [repeat split|].
  cbn. rewrite Huser, Hopen. repeat split.
Qed.

(** *** Commands *)

Lemma errors_app (o1 o2 : list (@Emission View)) :
  errors (o1 ++ o2) = (errors o1 + errors o2)%nat.
Proof. unfold errors. now rewrite List.filter_app, length_app. Qed.

Lemma errors_none (o : list (@Emission View)) :
  (forall e, e ∈ o -> is_error e = false) -> errors o = 0%nat.
Proof.
  unfold errors. induction o as [|e o IH]; intros H; [reflexivity|].
  cbn. rewrite (H e) by now left. apply IH. intros x Hx. apply H. now right.
Qed.

Lemma room_messages_quiet game sids w (o : list (@Emission View)) :
  (forall e, e ∈ o -> e ∈ room_messages (view_message svc game) sids w) ->
  errors o = 0%nat.
Proof.
  intros H. apply errors_none. intros e He.
  apply H, elem_of_room_messages in He.
  now destruct He as (sid & s & u & _ & _ & _ & ->).
Qed.

Lemma sendGameToGameUsers_quiet game w :
  exists new,
    snd (sendGameToGameUsers svc game w) = set_outbox (outbox w ++ new) w /\
    errors new = 0%nat.
Proof.
  destruct (sendGameToGameUsers_effect game w) as (new & Hw & Hin & _).
  exists new. split; [exact Hw|]. eapply room_messages_quiet, Hin.
Qed.

Lemma broadcast_game_quiet n w :
  exists new,
    snd (broadcast_game svc n w) = set_outbox (outbox w ++ new) w /\
    errors new = 0%nat.
Proof.
  unfold broadcast_game, bind, findOne_parsed.
  destruct (findOne svc n (db w)) as [game|].
  - destruct (sendGameToGameUsers_quiet game w) as (new & Hw & Hz).
    destruct (sendGameToGameUsers svc game w) as [[[]|] w1]; cbn [snd] in *;
      subst w1.
    + eexists. unfold emit, modify. cbn [snd]. rewrite set_outbox_twice.
      split; [reflexivity|]. rewrite errors_app, Hz. reflexivity.
    + exists new. auto.
  - exists []. cbn [snd]. now rewrite set_outbox_nil.
Qed.

Lemma kickUsersFromGame_quiet game w :
  exists new,
    snd (kickUsersFromGame game w) = set_outbox (outbox w ++ new) w /\
    @errors View new = 0%nat.
Proof.
  destruct (kickUsersFromGame_effect game w) as (new & Hw & Hin & _).
  exists new. split; [exact Hw|]. apply errors_none. intros e He.
  apply Hin, elem_of_room_messages in He.
  now destruct He as (sid & s & u & _ & _ & _ & ->).
Qed.

(** Symbolic execution of a handler equation [H : handler w = (r, w')]:
    case on each collaborator's answer and on each guard, summarise the
    fan-out helpers by what they add to the outbox. *)
Ltac exec_step H :=
  match type of H with
  | context [broadcast_game ?s ?n ?W] =>
      let new := fresh "new" in
      let Hq := fresh "Hq" in
      let Hz := fresh "Hz" in
      let wq := fresh "wq" in
      destruct (broadcast_game_quiet n W) as (new & Hq & Hz);
      destruct (broadcast_game s n W) as [[[]|] wq];
      cbn [snd] in Hq; subst wq
  | context [sendGameToGameUsers ?s ?g ?W] =>
      let new := fresh "new" in
      let Hq := fresh "Hq" in
      let Hz := fresh "Hz" in
      let wq := fresh "wq" in
      destruct (sendGameToGameUsers_quiet g W) as (new & Hq & Hz);
      destruct (sendGameToGameUsers s g W) as [[[]|] wq];
      cbn [snd] in Hq; subst wq
  | context [kickUsersFromGame ?g ?W] =>
      let new := fresh "new" in
      let Hq := fresh "Hq" in
      let Hz := fresh "Hz" in
      let wq := fresh "wq" in
      destruct (kickUsersFromGame_quiet g W) as (new & Hq & Hz);
      destruct (kickUsersFromGame g W) as [[[]|] wq];
      cbn [snd] in Hq; subst wq
  | context [match ?x with inl _ => _ | inr _ => _ end] =>
      let E := fresh "E" in
      destruct x as [?|?] eqn:E
  | context [match ?x with Some _ => _ | None => _ end] =>
      let E := fresh "E" in
      destruct x eqn:E
  | context [match ?x with Rejected _ => _ | Failed => _ end] =>
      is_var x; destruct x
  | context [let (_, _) := ?x in _] =>
      is_var x; destruct x
  | context [if ?b then _ else _] =>
      let E := fresh "E" in
      destruct b eqn:E
  end; cbn beta iota in H.

Ltac exec H :=
  unfold sendError_response, sendError, join, leave, emit, setTimeout,
    clearTimeout, modify, bind, get, call, call_, log_create, ret, throw,
    findOne_parsed in H;
  cbn beta iota in H;
  repeat exec_step H.

(** C1 (as the code has it). A coordinator command whose handler returns
    without having sent any ["error-message"] has appended to the log
    exactly the entries of its kind, all in the caller's name: one entry
    for join, open, watch, leave, close, ready, update and start; for a
    move, one ["move"] entry, followed by one ["finish"] entry exactly
    when the game service returned the game finished; for new-game two
    entries, ["create"] then the ["join"] of the join it goes on with;
    none for remove-game. *)
Theorem committed_command_logs cmd c w w' :
  handle svc cmd c w = (Done tt, w') ->
  errors (outbox w') = errors (outbox w) ->
  exists new,
    logs w' = logs w ++ new /\
    map log_type new = expected_logs svc cmd c (db w) /\
    Forall (fun e => log_user e = client_user c) new.
Proof.
  intros H Herr.
  destruct cmd; cbn [expected_logs];
    unfold handle, newGame, joinGame, openGame, watchGame, leaveGame,
      closeGame, removeGame, toggleReady, updateOption, startGame, move,
      finish_log in H;
    exec H.
  all: try discriminate.
  all: apply (f_equal snd) in H; cbn [snd] in H; subst w'.
  all: cbn [outbox set_outbox set_rooms set_logs set_db] in Herr;
    rewrite ?errors_app in Herr; unfold errors in *; cbn in Herr.
  all: try lia.
  all: cbn [logs set_outbox set_rooms set_logs set_db].
  all: rewrite <- ?app_assoc.
  all: first [ eexists; split; [reflexivity|]; split; [reflexivity|]
             | exists []; rewrite app_nil_r; split; [reflexivity|];
               split; [reflexivity|] ].
  all: repeat constructor.
Qed.


(** *** Timers *)

Lemma run_action_timers a w :
  pending (snd (run_action svc a w)) = pending w /\
  next_timer (snd (run_action svc a w)) = next_timer w.
Proof.
  destruct (run_action svc a w) as [r w'] eqn:H. cbn [snd].
  destruct a as [token|user client]; unfold run_action in H; exec H;
    apply (f_equal snd) in H; cbn [snd] in H; subst w'; split; reflexivity.
Qed.

Lemma filter_other_ids (h : nat) (l : list Timer) :
  h ∉ map timer_id l -> filter (fun x => timer_id x ≠ h) l = l.
Proof.
  induction l as [|tm l IH]; intros Hnot; [reflexivity|].
  rewrite filter_cons. cbn in Hnot. apply not_elem_of_cons in Hnot as [Hne Hl].
  destruct (decide (timer_id tm ≠ h)) as [_|Heq]; [now rewrite IH|].
  exfalso. apply Heq. auto.
Qed.

Lemma fire_pending tm w :
  pending (fire svc tm w) =
    filter (fun x => timer_id x ≠ timer_id tm) (pending w) /\
  next_timer (fire svc tm w) = next_timer w.
Proof.
  unfold fire. destruct (decide (timer_id tm ∈ map timer_id (pending w))).
  - destruct (run_action_timers (timer_action tm)
      (set_timers (next_timer w)
         (filter (fun x => timer_id x ≠ timer_id tm) (pending w)) w))
      as [Hp Hn]. now rewrite Hp, Hn.
  - now rewrite filter_other_ids.
Qed.

Lemma fold_fire_keeps (D : list Timer) : forall w T,
  T ∈ pending w ->
  (forall tm, tm ∈ D -> timer_id tm <> timer_id T) ->
  T ∈ pending (fold_left (fun w tm => fire svc tm w) D w).
Proof.
  induction D as [|tm D IH]; intros w T Hin Hne; [exact Hin|].
  cbn [fold_left]. apply IH.
  - destruct (fire_pending tm w) as [-> _]. apply list_elem_of_filter.
    split; [|exact Hin]. intros Heq. apply (Hne tm); [now left | auto].
  - intros x Hx. apply Hne. now right.
Qed.



Ltac exec_done H w' :=
  apply (f_equal snd) in H; cbn [snd] in H; subst w'.

(** A token that resolves to a user is one that the token service has
    issued. *)
Lemma resolved_token token d user :
  findOneByUserId svc (getUserIdByToken svc token) d = Some user ->
  inherited token = false.
Proof.
  intros Hu. destruct (inherited token) eqn:Hinh; [|reflexivity].
  rewrite (token_is_jwt svc token d Hinh) in Hu. discriminate.
Qed.

Lemma handleConnection_ignored client w :
  inherited (sock_token client) = true ->
  handleConnection svc client w = (Done tt, w).
Proof.
  intros Hinh. unfold handleConnection, bind, get.
  destruct (connectTimers w !! sock_token client); [reflexivity|].
  now rewrite Hinh.
Qed.

Lemma handleConnection_installs client w :
  connectTimers w !! sock_token client = None ->
  inherited (sock_token client) = false ->
  connectTimers (snd (handleConnection svc client w))
  = <[sock_token client := next_timer w]> (connectTimers w) /\
  next_timer (snd (handleConnection svc client w)) = S (next_timer w).
Proof.
  intros Hguard Hinh.
  destruct (handleConnection svc client w) as [r w1] eqn:H. cbn [snd].
  unfold handleConnection in H. unfold bind at 1, get in H.
  rewrite Hguard, Hinh in H. exec H; exec_done H w1; split; reflexivity.
Qed.

Lemma handleConnection_pending client w :
  timers_ok w ->
  connectTimers w !! sock_token client = None ->
  inherited (sock_token client) = false ->
  exists P,
    pending (snd (handleConnection svc client w))
    = P ++ [guard_timer (sock_token client) w] /\
    (forall tm, tm ∈ P -> tm ∈ pending w) /\
    (forall uid,
       disconnectTimers (snd (handleConnection svc client w)) !! uid = None ->
       forall h, disconnectTimers w !! uid = Some h ->
                 h ∉ map timer_id P).
Proof.
  intros Hok Hguard Hinh.
  destruct (handleConnection svc client w) as [r w1] eqn:H. cbn [snd].
  unfold handleConnection in H. unfold bind at 1, get in H.
  rewrite Hguard, Hinh in H. exec H; exec_done H w1;
    cbn [pending disconnectTimers set_timers set_connectTimers set_rooms
         set_disconnectTimers set_logs set_db set_outbox next_timer].
  all: try (exists (pending w); split; [reflexivity|]; split; [auto|];
            intros uid Hnone h Hsome; congruence).
  (* the pending disconnect of this user is cleared *)
  cbn in E1. rename n into h.
  exists (filter (fun tm => timer_id tm ≠ h) (pending w)).
  rewrite filter_app, filter_cons, filter_nil. cbn [timer_id].
  pose proof (disconnect_fresh w Hok _ _ E1) as Hlt.
  destruct (decide (next_timer w ≠ h)) as [_|Heq]; [|exfalso; apply Heq; lia].
  split; [reflexivity|]. split.
  - intros tm Htm. now apply list_elem_of_filter in Htm as [_ Htm].
  - intros uid Hnone h' Hsome Hin.
    destruct (decide (uid = user_id u)) as [->|Hne].
    + assert (h' = h) as -> by congruence.
      apply list_elem_of_fmap in Hin as (tm & Hid & Htm).
      apply list_elem_of_filter in Htm as [Hneq _]. congruence.
    + rewrite lookup_delete_ne in Hnone by congruence. congruence.
Qed.



(** *** The timers stay well formed *)

(** A gateway that has scheduled nothing yet. *)
Lemma timers_ok_initial w :
  pending w = [] -> disconnectTimers w = ∅ -> timers_ok w.
Proof.
  intros Hp Hd. constructor.
  - intros tm Htm. rewrite Hp in Htm. inversion Htm.
  - intros k h Hk. rewrite Hd, lookup_empty in Hk. discriminate.
  - intros tm k Htm. rewrite Hp in Htm. inversion Htm.
Qed.

Lemma run_action_maps a w :
  (forall k h, disconnectTimers (snd (run_action svc a w)) !! k = Some h ->
               disconnectTimers w !! k = Some h) /\
  connectTimers (snd (run_action svc a w))
  = match a with
    | ClearConnect token => delete token (connectTimers w)
    | CommitDisconnect _ _ => connectTimers w
    end.
Proof.
  destruct (run_action svc a w) as [r w'] eqn:H. cbn [snd].
  destruct a as [token|user client]; unfold run_action in H; exec H;
    exec_done H w'; (split; [|reflexivity]); cbn; auto.
  intros k h Hk. apply lookup_delete_Some in Hk. tauto.
Qed.

Lemma timers_ok_fire tm w :
  timers_ok w ->
  tm ∈ pending w \/ timer_id tm ∉ map timer_id (pending w) ->
  timers_ok (fire svc tm w).
Proof.
  intros Hok Hin. unfold fire.
  destruct (decide (timer_id tm ∈ map timer_id (pending w))) as [Hid|]; [|exact Hok].
  destruct Hin as [Hin|Hnot]; [|contradiction].
  set (W := set_timers _ _ w).
  destruct (run_action_timers (timer_action tm) W) as [Hp Hn].
  destruct (run_action_maps (timer_action tm) W) as [Hd Hc].
  constructor.
  - intros x Hx. rewrite Hp, Hn in *. cbn in *.
    apply list_elem_of_filter in Hx as [_ Hx]. now apply (pending_fresh w Hok).
  - intros k h Hk. rewrite Hn. apply Hd in Hk. cbn in *.
    now apply (disconnect_fresh w Hok k).
  - intros x k Hx Hact. rewrite Hp in Hx. cbn in Hx.
    apply list_elem_of_filter in Hx as [Hne Hx]. rewrite Hc. cbn.
    pose proof (guard_pending w Hok x k Hx Hact) as Hg.
    destruct (timer_action tm) as [token|user client] eqn:Ha; [|exact Hg].
    rewrite lookup_delete_ne; [exact Hg|]. intros <-.
    pose proof (guard_pending w Hok tm token Hin Ha). congruence.
Qed.

Lemma timers_ok_fold (D : list Timer) : forall w,
  timers_ok w ->
  (forall tm, tm ∈ D -> tm ∈ pending w \/ timer_id tm ∉ map timer_id (pending w)) ->
  timers_ok (fold_left (fun w tm => fire svc tm w) D w).
Proof.
  induction D as [|tm D IH]; intros w Hok HD; [exact Hok|].
  cbn [fold_left]. apply IH.
  - apply timers_ok_fire; [exact Hok|]. apply HD. now left.
  - intros x Hx. destruct (fire_pending tm w) as [-> _].
    destruct (HD x) as [Hin|Hnot]; [now right| |].
    + destruct (decide (timer_id x = timer_id tm)) as [Heq|Hne].
      * right. intros Hm. apply list_elem_of_fmap in Hm as (y & Hy & Hm).
        apply list_elem_of_filter in Hm as [Hm _]. congruence.
      * left. apply list_elem_of_filter. auto.
    + right. intros Hm. apply Hnot.
      apply list_elem_of_fmap in Hm as (y & Hy & Hm).
      apply list_elem_of_filter in Hm as [_ Hm].
      apply list_elem_of_fmap. eauto.
Qed.

Lemma timers_ok_advance t w : timers_ok w -> timers_ok (advance svc t w).
Proof.
  intros Hok. unfold advance.
  assert (timers_ok (fold_left (fun w tm => fire svc tm w) (due t w) w)) as H.
  { apply timers_ok_fold; [exact Hok|]. intros tm Htm. left.
    unfold due in Htm. now apply list_elem_of_filter in Htm as [_ Htm]. }
  destruct H as [H1 H2 H3]. constructor; assumption.
Qed.

Lemma handleConnection_disconnectTimers client w k h :
  disconnectTimers (snd (handleConnection svc client w)) !! k = Some h ->
  disconnectTimers w !! k = Some h.
Proof.
  destruct (handleConnection svc client w) as [r w1] eqn:H. cbn [snd].
  unfold handleConnection in H. exec H; exec_done H w1; cbn; auto.
  intros Hk. apply lookup_delete_Some in Hk. tauto.
Qed.

Lemma timers_ok_handleConnection client w :
  timers_ok w -> timers_ok (snd (handleConnection svc client w)).
Proof.
  intros Hok.
  destruct (connectTimers w !! sock_token client) as [h|] eqn:Hguard.
  { rewrite (handleConnection_debounced client w h Hguard). exact Hok. }
  destruct (inherited (sock_token client)) eqn:Hinh.
  { rewrite (handleConnection_ignored client w Hinh). exact Hok. }
  - destruct (handleConnection_installs client w Hguard Hinh) as [Hct Hnt].
    destruct (handleConnection_pending client w Hok Hguard Hinh)
      as (P & HP & Hsub & _).
    constructor.
    + intros tm Htm. rewrite HP in Htm. rewrite Hnt.
      apply elem_of_app in Htm as [Htm|Htm].
      * apply Hsub, (pending_fresh w Hok) in Htm. lia.
      * apply list_elem_of_singleton in Htm as ->. cbn. lia.
    + intros k h Hk. rewrite Hnt.
      apply handleConnection_disconnectTimers, (disconnect_fresh w Hok) in Hk.
      lia.
    + intros tm k Htm Hact. rewrite HP in Htm. rewrite Hct.
      apply elem_of_app in Htm as [Htm|Htm].
      * apply Hsub in Htm. pose proof (guard_pending w Hok tm k Htm Hact) as Hg.
        rewrite lookup_insert_ne; [exact Hg|]. intros <-. congruence.
      * apply list_elem_of_singleton in Htm as ->. cbn in Hact.
        injection Hact as <-. apply lookup_insert_eq.
Qed.

Lemma timers_ok_handleDisconnect client w :
  timers_ok w -> timers_ok (snd (handleDisconnect svc client w)).
Proof.
  intros Hok.
  destruct (handleDisconnect svc client w) as [r w1] eqn:H. cbn [snd].
  unfold handleDisconnect in H. exec H; exec_done H w1; try exact Hok.
  constructor; cbn.
  - intros tm Htm. apply elem_of_app in Htm as [Htm|Htm].
    + apply (pending_fresh w Hok) in Htm. lia.
    + apply list_elem_of_singleton in Htm as ->. cbn. lia.
  - intros k h Hk. apply lookup_insert_Some in Hk as [[_ <-]|[_ Hk]]; [lia|].
    apply (disconnect_fresh w Hok) in Hk. lia.
  - intros tm k Htm Hact. apply elem_of_app in Htm as [Htm|Htm].
    + now apply (guard_pending w Hok).
    + apply list_elem_of_singleton in Htm as ->. discriminate.
Qed.

(** The commands leave the timers alone. *)
Lemma handle_timers cmd c w :
  let w' := snd (handle svc cmd c w) in
  pending w' = pending w /\ next_timer w' = next_timer w /\
  connectTimers w' = connectTimers w /\
  disconnectTimers w' = disconnectTimers w.
Proof.
  destruct (handle svc cmd c w) as [r w'] eqn:H. cbn [snd].
  destruct cmd;
    unfold handle, newGame, joinGame, openGame, watchGame, leaveGame,
      closeGame, removeGame, toggleReady, updateOption, startGame, move,
      finish_log in H;
    exec H; exec_done H w'; repeat split.
Qed.

(** The socket server's own bookkeeping does not touch the timers. *)
Lemma timers_ok_socket_opens client w :
  timers_ok w -> timers_ok (socket_opens client w).
Proof. intros [H1 H2 H3]. constructor; assumption. Qed.

Lemma timers_ok_socket_closes client w :
  timers_ok w -> timers_ok (socket_closes client w).
Proof. intros [H1 H2 H3]. constructor; assumption. Qed.

(** Every step of the event loop keeps the timers well formed. *)
Lemma timers_ok_step w e : timers_ok w -> timers_ok (step svc w e).
Proof.
  intros Hok. unfold step. apply (timers_ok_advance (fst e)) in Hok.
  destruct (snd e) as [client|client|c cmd].
  - now apply timers_ok_handleConnection, timers_ok_socket_opens.
  - now apply timers_ok_handleDisconnect, timers_ok_socket_closes.
  - destruct (handle_timers cmd c (advance svc (fst e) w)) as (Hp & Hn & Hc & Hd).
    destruct Hok as [H1 H2 H3].
    constructor; rewrite ?Hp, ?Hn, ?Hc, ?Hd; assumption.
Qed.






(** *** Rooms, and what a clearing timer leaves alone *)




(** C3 (as the code has it). A remove-game that the game service and the
    invite service accept, on a game whose room members are all connected
    sockets: every member of the room that has a user attached is sent
    the kick signal (["update-opened-game"] with [null]), one each and in
    room order, then ["remove-game"] with the game number goes to
    everybody; the invites of the game are closed (the store is the one
    the invite service returns); the room index is left as it was. *)
Theorem remove_game_signals_room c n w game d1 d2 :
  findOne svc n (db w) = Some game ->
  gs_removeGame svc (client_user c) n (db w) = inr d1 ->
  inviteService_closeInvites svc (game_id game) d1 = inr d2 ->
  (forall sid, sid ∈ room_members (game_id game) w ->
               is_Some (find_socket sid w)) ->
  removeGame svc c n w =
    (Done tt,
     set_outbox
       (outbox w ++
        room_messages kick_message (room_members (game_id game) w) w ++
        [{| em_target := ToAll; em_event := "remove-game";
            em_data := PGameNumber n |}])
       (set_db d2 w)) /\
  (forall sid s u,
     sid ∈ room_members (game_id game) w ->
     find_socket sid w = Some s -> sock_user s = Some u ->
     kick_message sid u ∈ outbox (snd (removeGame svc c n w))) /\
  rooms (snd (removeGame svc c n w)) = rooms w /\
  logs (snd (removeGame svc c n w)) = logs w.
Proof.
  intros Hgame Hrm Hci Hconn.
  assert (removeGame svc c n w =
    (Done tt,
     set_outbox
       (outbox w ++
        room_messages kick_message (room_members (game_id game) w) w ++
        [{| em_target := ToAll; em_event := "remove-game";
            em_data := PGameNumber n |}])
       (set_db d2 w))) as E.
  { unfold removeGame, bind, get, call_. rewrite Hrm, Hgame. cbn [db set_db].
    rewrite Hci. change (set_db d2 (set_db d1 w)) with (set_db d2 w).
    destruct (kickUsersFromGame_effect game (set_db d2 w))
      as (new & Hw & _ & Hall).
    destruct Hall as [Hd Hn]; [exact Hconn|].
    destruct (kickUsersFromGame game (set_db d2 w)) as [r w'].
    cbn [fst snd] in *. subst r w' new. unfold emit, modify.
    rewrite set_outbox_twice. reflexivity. }
  rewrite E. cbn [snd]. repeat split.
  intros sid s u Hin Hs Hu. cbn. apply elem_of_app. right.
  apply elem_of_app. left. apply elem_of_room_messages. exists sid, s, u. auto.
Qed.

(** * Further properties of the gateway *)

(** *** Messages to the sockets of one user *)

Lemma each_socket_effect (f : Socket -> User -> M unit)
  (mk : DB -> Socket -> @Emission View) uid ss :
  (forall s u w,
     f s u w =
     (Done tt,
      if decide (user_id u = uid)
      then set_outbox (outbox w ++ [mk (db w) s]) w else w)) ->
  forall w,
    each_socket f ss w =
    (Done tt,
     set_outbox
       (outbox w ++ map (mk (db w)) (List.filter (socket_of_user uid) ss)) w).
Proof.
  intros Hf. induction ss as [|s ss IH]; intros w.
  - cbn. now rewrite set_outbox_nil.
  - cbn [each_socket List.filter]. unfold bind, socket_of_user at 1.
    destruct (sock_user s) as [u|] eqn:Hu.
    + rewrite Hf. destruct (decide (user_id u = uid)) as [Heq|Hne].
      * rewrite bool_decide_eq_true_2 by exact Heq. rewrite IH.
        cbn [map]. rewrite set_outbox_twice. reflexivity.
      * rewrite bool_decide_eq_false_2 by exact Hne. apply IH.
    + unfold ret. apply IH.
Qed.

Lemma sendInvite_effect invite w :
  sendInvite invite w =
    (Done tt,
     set_outbox
       (outbox w ++
        map (invite_message invite)
          (List.filter (socket_of_user (invite_invitee invite)) (connected w)))
       w).
Proof.
  unfold sendInvite, bind, get.
  apply (each_socket_effect _ (fun _ => invite_message invite)).
  intros s u w0. unfold emit, modify, ret. now destruct (decide _).
Qed.

Lemma updateCurrentUser_effect userId w :
  updateCurrentUser svc userId w =
    (Done tt,
     set_outbox
       (outbox w ++
        map (current_user_message svc userId (db w))
          (List.filter (socket_of_user userId) (connected w)))
       w).
Proof.
  unfold updateCurrentUser, bind at 1, get.
  apply (each_socket_effect _ (current_user_message svc userId)).
  intros s u w0. unfold bind, get, emit, modify, ret. now destruct (decide _).
Qed.

(** An invite is delivered to every connected socket of the invitee
    (one message per socket, in connection order) and to no other socket;
    nothing else changes. *)
Theorem invite_reaches_every_socket_of_invitee invite w :
  sendInvite invite w =
    (Done tt,
     set_outbox
       (outbox w ++
        map (invite_message invite)
          (List.filter (socket_of_user (invite_invitee invite)) (connected w)))
       w).
Proof.
  unfold sendInvite, bind, get.
  apply (each_socket_effect _ (fun _ => invite_message invite)).
  intros s u w0. unfold emit, modify, ret.
  destruct (decide (user_id u = invite_invitee invite)); reflexivity.
Qed.

(** The refreshed user record is delivered to every connected socket
    of that user and to no other socket; nothing else changes. *)
Theorem current_user_reaches_every_socket userId w :
  updateCurrentUser svc userId w =
    (Done tt,
     set_outbox
       (outbox w ++
        map (current_user_message svc userId (db w))
          (List.filter (socket_of_user userId) (connected w)))
       w).
Proof.
  unfold updateCurrentUser, bind at 1, get.
  apply (each_socket_effect _ (current_user_message svc userId)).
  intros s u w0. unfold bind, get, emit, modify, ret.
  destruct (decide (user_id u = userId)); reflexivity.
Qed.

Lemma errors_map_quiet {A} (mk : A -> @Emission View) l :
  (forall a, is_error (mk a) = false) -> errors (map mk l) = 0%nat.
Proof.
  intros Hmk. apply errors_none. intros e He.
  apply list_elem_of_fmap in He as (a & -> & _). apply Hmk.
Qed.

Lemma invite_players_effect c ng players : forall w,
  exists d new,
    invite_players svc c ng players w =
      (Done tt, set_outbox (outbox w ++ new) (set_db d w)) /\
    errors new = 0%nat.
Proof.
  induction players as [|p players IH]; intros w.
  - exists (db w), []. split; [|reflexivity]. cbn. unfold ret.
    destruct w; unfold set_outbox, set_db; cbn. now rewrite app_nil_r.
  - cbn [invite_players]. unfold bind at 1.
    assert (exists d new,
      (if decide (p = user_id (client_user c)) then ret tt
       else match ng with
            | Some ng0 =>
                bind (call (inviteService_create svc (game_id ng0)
                              (client_user c) p))
                  (fun i => match i with
                            | inl _ => ret tt
                            | inr invite => sendInvite invite
                            end)
            | None => ret tt
            end) w = (Done tt, set_outbox (outbox w ++ new) (set_db d w)) /\
      errors new = 0%nat) as (d1 & n1 & -> & Hz1).
    { assert (Hid : (Done tt, w) =
                (Done tt, set_outbox (outbox w ++ []) (set_db (db w) w))).
      { destruct w; unfold set_outbox, set_db; cbn. now rewrite app_nil_r. }
      destruct (decide _); [exists (db w), []; split; [exact Hid|reflexivity]|].
      destruct ng as [ng0|]; [|exists (db w), []; split; [exact Hid|reflexivity]].
      unfold bind, call.
      destruct (inviteService_create svc _ _ _ (db w)) as [m|[invite d']].
      - exists (db w), []. split; [exact Hid|reflexivity].
      - rewrite sendInvite_effect.
        exists d'. eexists. split; [reflexivity|].
        apply errors_map_quiet. reflexivity. }
    destruct (IH (set_outbox (outbox w ++ n1) (set_db d1 w)))
      as (d2 & n2 & -> & Hz2).
    exists d2, (n1 ++ n2). split.
    + f_equal. unfold set_outbox, set_db; cbn. now rewrite app_assoc.
    + rewrite errors_app. lia.
Qed.

Lemma room_add_other cid r (R : gmap string (list string)) room sid :
  sid <> cid ->
  sid ∈ members room (room_add cid r R) <-> sid ∈ members room R.
Proof.
  intros Hne. unfold members, room_add.
  destruct (R !! r) as [l|] eqn:E.
  - destruct (decide (cid ∈ l)); [reflexivity|].
    destruct (decide (r = room)) as [<-|Hr].
    + rewrite lookup_insert_eq, E. cbn. rewrite elem_of_app.
      rewrite list_elem_of_singleton. tauto.
    + now rewrite lookup_insert_ne.
  - destruct (decide (r = room)) as [<-|Hr].
    + rewrite lookup_insert_eq, E. cbn. rewrite list_elem_of_singleton.
      split; [contradiction | intros H; inversion H].
    + now rewrite lookup_insert_ne.
Qed.

Lemma members_del cid r (R : gmap string (list string)) :
  members r (room_del cid r R) = filter (fun s => s ≠ cid) (members r R).
Proof.
  unfold members, room_del.
  destruct (R !! r) as [l|] eqn:E; cbn [default].
  - destruct (filter (fun s => s ≠ cid) l) eqn:F.
    + now rewrite lookup_delete_eq.
    + now rewrite lookup_insert_eq.
  - now rewrite E.
Qed.

Lemma room_del_other cid r (R : gmap string (list string)) room sid :
  sid <> cid ->
  sid ∈ members room (room_del cid r R) <-> sid ∈ members room R.
Proof.
  intros Hne. destruct (decide (r = room)) as [<-|Hr].
  - rewrite members_del, list_elem_of_filter. tauto.
  - unfold members, room_del. destruct (R !! r) as [l|]; [|reflexivity].
    destruct (filter (fun s => s ≠ cid) l).
    + now rewrite lookup_delete_ne.
    + now rewrite lookup_insert_ne.
Qed.

Lemma quiet_caller cid (o : list (@Emission View)) :
  errors o = 0%nat ->
  Forall (fun e => is_error e = true -> em_target e = ToSocket cid) o.
Proof.
  unfold errors. induction o as [|e o IH]; intros Hz; constructor.
  - cbn in Hz. destruct (is_error e); [discriminate | discriminate].
  - apply IH. cbn in Hz. now destruct (is_error e).
Qed.

Ltac exec_more_step H :=
  first
    [ match type of H with
      | context [invite_players svc ?c ?ng ?ps ?W] =>
          let d := fresh "d" in
          let new := fresh "new" in
          let Hq := fresh "Hq" in
          let Hz := fresh "Hz" in
          destruct (invite_players_effect c ng ps W) as (d & new & Hq & Hz);
          rewrite Hq in H; clear Hq
      | context [updateCurrentUser svc ?u ?W] =>
          let new := fresh "new" in
          let Hz := fresh "Hz" in
          rewrite (updateCurrentUser_effect u W) in H;
          match type of H with
          | context [map (current_user_message svc u ?d) ?l] =>
              assert (Hz : errors (map (current_user_message svc u d) l) = 0%nat)
                by (apply errors_map_quiet; reflexivity);
              set (new := map (current_user_message svc u d) l) in *;
              clearbody new
          end
      end; cbn beta iota in H
    | exec_step H ].

Ltac exec_more H :=
  unfold sendError_response, sendError, join, leave, emit, setTimeout,
    clearTimeout, modify, bind, get, call, call_, log_create, ret, throw,
    findOne_parsed in H;
  cbn beta iota in H;
  repeat exec_more_step H.

Ltac world_fields :=
  cbn [db now next_timer pending connectTimers disconnectTimers connected rooms
       logs outbox set_db set_now set_timers set_connectTimers
       set_disconnectTimers set_rooms set_logs set_outbox].

Ltac solve_grows :=
  rewrite <- ?app_assoc;
  first [ eexists; reflexivity
        | exists []; rewrite app_nil_r; reflexivity ].

Ltac solve_caller_errors :=
  repeat (apply Forall_app; split);
  repeat first
    [ solve [constructor]
    | apply quiet_caller; assumption
    | apply Forall_cons; split;
      [ cbn; intros; first [reflexivity | discriminate] | ] ].

(** What any inbound message can do to the state, whatever its outcome. *)
Lemma receive_summary m c w :
  let w' := snd (receive svc m c w) in
  now w' = now w /\ next_timer w' = next_timer w /\ pending w' = pending w /\
  connectTimers w' = connectTimers w /\
  disconnectTimers w' = disconnectTimers w /\
  connected w' = connected w /\
  (exists l, logs w' = logs w ++ l) /\
  (exists o, outbox w' = outbox w ++ o /\
             Forall (fun e => is_error e = true ->
                              em_target e = ToSocket (client_id c)) o) /\
  (forall room sid, sid <> client_id c ->
     sid ∈ members room (rooms w') <-> sid ∈ members room (rooms w)).
Proof.
  destruct (receive svc m c w) as [r w'] eqn:H. cbn [snd].
  destruct m as [cmd| | | | |]; [destruct cmd|..];
    unfold receive, handle, repeatGame, acceptInvite, declineInvite,
      getAllGames, getOpenedGame, newGame, joinGame, openGame, watchGame,
      leaveGame, closeGame, removeGame, toggleReady, updateOption, startGame,
      move, finish_log in H;
    cbn [socket_of sock_user sock_id] in H;
    exec_more H; exec_done H w'; world_fields.
  all: repeat (split; [reflexivity|]).
  all: split; [solve_grows|].
  all: split;
    [ rewrite <- ?app_assoc;
      first [ eexists; split; [reflexivity|]; solve_caller_errors
            | exists []; split; [now rewrite app_nil_r | constructor] ]
    | intros room sid Hne;
      rewrite ?room_add_other, ?room_del_other by exact Hne; reflexivity ].
Qed.

Lemma is_error_event (e : @Emission View) :
  is_error e = true <-> em_event e = "error-message".
Proof. unfold is_error. apply String.eqb_eq. Qed.

(** An inbound message, whatever it is and however it ends, only adds to
    the outbox, and every ["error-message"] it adds is addressed to the
    socket of the caller: errors are never sent to a room, to another
    user or to everybody. *)
Theorem errors_go_to_the_caller_only m c w :
  exists o,
    outbox (snd (receive svc m c w)) = outbox w ++ o /\
    forall e, e ∈ o -> em_event e = "error-message" ->
              em_target e = ToSocket (client_id c).
Proof.
  destruct (receive_summary m c w) as (_ & _ & _ & _ & _ & _ & _ & Ho & _).
  destruct Ho as (o & Ho & Hall). exists o. split; [exact Ho|].
  intros e He Hev. rewrite Forall_forall in Hall.
  apply Hall; [exact He | now apply is_error_event].
Qed.

(** An inbound message changes the room membership of no socket but the
    caller's: no handler makes another connection join or leave a room. *)
Theorem only_the_caller_changes_rooms m c w room sid :
  sid <> client_id c ->
  sid ∈ room_members room (snd (receive svc m c w)) <->
  sid ∈ room_members room w.
Proof.
  intros Hne.
  destruct (receive_summary m c w) as (_ & _ & _ & _ & _ & _ & _ & _ & Hr).
  exact (Hr room sid Hne).
Qed.

(** No inbound message touches the presence machinery: the clock, the
    pending timers, both timer tables and the table of connected sockets
    are the same afterwards. *)
Theorem messages_leave_presence_alone m c w :
  let w' := snd (receive svc m c w) in
  now w' = now w /\ next_timer w' = next_timer w /\ pending w' = pending w /\
  connectTimers w' = connectTimers w /\
  disconnectTimers w' = disconnectTimers w /\
  connected w' = connected w.
Proof.
  destruct (receive_summary m c w) as (H1 & H2 & H3 & H4 & H5 & H6 & _).
  cbv zeta. auto 10.
Qed.

(** *** Partial commits *)

(** When the game service has accepted the mutation of a command and the
    log service then fails to create the entry, the handler stops there:
    the store is the one the game service returned (the mutation is not
    undone), no entry is in the log, no room is joined or left and
    nothing is broadcast.  The caller is told only when the failure
    carries a response: then it is sent that one ["error-message"] and
    the handler returns; otherwise nothing at all is sent and the
    handler throws. *)
Theorem rejected_log_keeps_the_mutation cmd c w g d entry e :
  mutation svc cmd c (db w) = Some (inr (g, d)) ->
  command_log cmd c g = Some entry ->
  logService_create svc entry d = inl e ->
  handle svc cmd c w =
    (match e with Rejected _ => Done tt | Failed => Thrown end,
     set_outbox
       (outbox w ++
        match e with Rejected m => [error_message c m] | Failed => [] end)
       (set_db d w)).
Proof.
  intros Hmut Hentry Hlog.
  destruct cmd; cbn [mutation command_log] in Hmut, Hentry;
    try discriminate;
    unfold handle, newGame, joinGame, openGame, watchGame, leaveGame,
      closeGame, toggleReady, updateOption, startGame, move,
      bind, get, call, log_create, sendError_response, sendError, emit,
      modify, ret, throw;
    repeat match type of Hmut with
           | context [openedGame ?u] => destruct (openedGame u)
           | context [is_current_game ?u ?n] =>
               destruct (is_current_game u n); cbn [negb]
           end; try discriminate;
    injection Hmut as Hmut; injection Hentry as <-;
    rewrite Hmut; cbn [db set_db]; rewrite Hlog;
    (destruct e; [reflexivity|]);
    f_equal; destruct w; unfold set_outbox, set_db; cbn;
    now rewrite app_nil_r.
Qed.

(** A start-game whose game and log entry are accepted but whose invites
    cannot be closed stops after the log: the game is started in the
    store and the ["start"] entry is in the log, but neither the room nor
    the lobby is told.  The caller gets the error when the failure
    carries a response; otherwise nothing is sent and the handler
    throws. *)
Theorem start_game_is_silent_when_invites_fail c n w g d1 d2 e :
  gs_startGame svc n (db w) = inr (g, d1) ->
  logService_create svc (mk_log "start" (client_user c) (game_id g) None) d1
    = inr d2 ->
  inviteService_closeInvites svc (game_id g) d2 = inl e ->
  startGame svc c n w =
    (match e with Rejected _ => Done tt | Failed => Thrown end,
     set_outbox
       (outbox w ++
        match e with Rejected m => [error_message c m] | Failed => [] end)
       (set_logs (logs w ++ [mk_log "start" (client_user c) (game_id g) None])
          (set_db d2 w))).
Proof.
  intros Hs Hl Hc.
  unfold startGame, bind, call, call_, log_create, sendError_response,
    sendError, emit, modify, throw.
  rewrite Hs. cbn [db set_db set_logs]. rewrite Hl. cbn [db set_db set_logs].
  rewrite Hc. destruct e; [reflexivity|].
  f_equal. destruct w; unfold set_outbox, set_logs, set_db; cbn.
  now rewrite app_nil_r.
Qed.

(** A remove-game that the game service accepts but whose invites cannot
    be closed stops there: the game is removed from the store, yet the
    members of its room get no kick signal and the lobby gets no
    ["remove-game"].  The caller gets the error when the failure carries
    a response; otherwise nothing is sent and the handler throws. *)
Theorem remove_game_is_silent_when_invites_fail c n w g d e :
  findOne svc n (db w) = Some g ->
  gs_removeGame svc (client_user c) n (db w) = inr d ->
  inviteService_closeInvites svc (game_id g) d = inl e ->
  removeGame svc c n w =
    (match e with Rejected _ => Done tt | Failed => Thrown end,
     set_outbox
       (outbox w ++
        match e with Rejected m => [error_message c m] | Failed => [] end)
       (set_db d w)).
Proof.
  intros Hg Hr Hc.
  unfold removeGame, bind, get, call_, sendError_response, sendError, emit,
    modify, throw.
  rewrite Hr, Hg. cbn [db set_db]. rewrite Hc. destruct e; [reflexivity|].
  f_equal. destruct w; unfold set_outbox, set_db; cbn. now rewrite app_nil_r.
Qed.


(** Remove-game, decline-invite and the two queries never write to the
    log, whatever their outcome. *)
Theorem some_messages_write_no_log m c w :
  writes_no_log m = true ->
  logs (snd (receive svc m c w)) = logs w.
Proof.
  intros Hm.
  destruct (receive svc m c w) as [r w'] eqn:H. cbn [snd].
  destruct m as [cmd| | | | |]; [destruct cmd|..]; try discriminate;
    unfold receive, handle, declineInvite, getAllGames, getOpenedGame,
      removeGame in H;
    cbn [socket_of sock_user sock_id] in H;
    exec_more H; exec_done H w'; reflexivity.
Qed.

(** *** Who is told *)

Lemma room_messages_to_sockets (mk : string -> User -> @Emission View)
  sids w (o : list Emission) :
  (forall sid u, em_target (mk sid u) = ToSocket sid) ->
  (forall e, e ∈ o -> e ∈ room_messages mk sids w) ->
  forall e, e ∈ o -> em_target e <> ToAll.
Proof.
  intros Hmk Hin e He. apply Hin, elem_of_room_messages in He.
  destruct He as (sid & s & u & _ & _ & _ & ->). now rewrite Hmk.
Qed.

Lemma sendGameToGameUsers_local game w :
  exists new,
    snd (sendGameToGameUsers svc game w) = set_outbox (outbox w ++ new) w /\
    forall e, e ∈ new -> em_target e <> ToAll.
Proof.
  destruct (sendGameToGameUsers_effect game w) as (new & Hw & Hin & _).
  exists new. split; [exact Hw|].
  eapply room_messages_to_sockets; [|exact Hin]. reflexivity.
Qed.

Ltac solve_local :=
  intros e He;
  repeat (apply elem_of_app in He as [He|He]);
  repeat (apply elem_of_cons in He as [->|He]);
  first [ discriminate
        | inversion He; fail
        | match goal with
          | Hl : forall e, e ∈ ?new -> em_target e <> ToAll |- _ =>
              exact (Hl _ He)
          end ].

Ltac exec_local_step H :=
  first
    [ match type of H with
      | context [sendGameToGameUsers svc ?g ?W] =>
          let new := fresh "new" in
          let Hq := fresh "Hq" in
          let Hl := fresh "Hl" in
          let wq := fresh "wq" in
          destruct (sendGameToGameUsers_local g W) as (new & Hq & Hl);
          destruct (sendGameToGameUsers svc g W) as [[[]|] wq];
          cbn [snd] in Hq; subst wq
      end; cbn beta iota in H
    | exec_step H ].

Ltac exec_local H :=
  unfold sendError_response, sendError, join, leave, emit, setTimeout,
    clearTimeout, modify, bind, get, call, call_, log_create, ret, throw,
    findOne_parsed in H;
  cbn beta iota in H;
  repeat exec_local_step H.

(** Toggle-ready and update-option tell the room only: whatever their
    outcome, nothing they emit is addressed to everybody, so the lobby
    never hears of a ready flag or of an option. *)
Theorem ready_and_options_stay_in_the_room c w :
  (exists o, outbox (snd (toggleReady svc c w)) = outbox w ++ o /\
             forall e, e ∈ o -> em_target e <> ToAll) /\
  (forall n name value,
     exists o, outbox (snd (updateOption svc c n name value w)) = outbox w ++ o /\
               forall e, e ∈ o -> em_target e <> ToAll).
Proof.
  split; [|intros n name value].
  - destruct (toggleReady svc c w) as [r w'] eqn:H. cbn [snd].
    unfold toggleReady in H. exec_local H; exec_done H w'; world_fields;
      rewrite <- ?app_assoc;
      first [ eexists; split; [reflexivity|]
            | exists []; split; [now rewrite app_nil_r|] ];
      solve_local.
  - destruct (updateOption svc c n name value w) as [r w'] eqn:H. cbn [snd].
    unfold updateOption in H. exec_local H; exec_done H w'; world_fields;
      rewrite <- ?app_assoc;
      first [ eexists; split; [reflexivity|]
            | exists []; split; [now rewrite app_nil_r|] ];
      solve_local.
Qed.

(** Whatever the outcome of a make-move, the only thing it can address
    to everybody is the ["update-game"] summary of a game that is
    finished: a move that leaves the game going is not announced to the
    lobby. *)
Theorem move_announces_only_finished_games c n mv w :
  exists o,
    outbox (snd (move svc c n mv w)) = outbox w ++ o /\
    forall e, e ∈ o -> em_target e = ToAll ->
      exists g, game_state g = GAME_FINISHED svc /\
                e = {| em_target := ToAll; em_event := "update-game";
                       em_data := PView (parseGameForAllUsers svc g) |}.
Proof.
  destruct (move svc c n mv w) as [r w'] eqn:H. cbn [snd].
  unfold move, finish_log in H. exec_local H; exec_done H w'; world_fields;
    rewrite <- ?app_assoc;
    first [ eexists; split; [reflexivity|]
          | exists []; split; [now rewrite app_nil_r|] ];
    intros e He Ht;
    repeat (apply elem_of_app in He as [He|He]);
    repeat (apply elem_of_cons in He as [->|He]);
    try discriminate; try (inversion He; fail);
    try (match goal with
         | Hl : forall e, e ∈ ?new -> em_target e <> ToAll |- _ =>
             exfalso; exact (Hl _ He Ht)
         end).
  all: eexists; split; [|reflexivity]; apply Z.eqb_eq; assumption.
Qed.

(** *** Where the caller ends up *)

Lemma room_add_here cid r (R : gmap string (list string)) :
  cid ∈ members r (room_add cid r R).
Proof.
  unfold members, room_add. destruct (R !! r) as [l|] eqn:E.
  - destruct (decide (cid ∈ l)) as [Hin|_].
    + now rewrite E.
    + rewrite lookup_insert_eq. cbn. apply elem_of_app. right. now left.
  - rewrite lookup_insert_eq. now left.
Qed.

Lemma room_del_here cid r (R : gmap string (list string)) :
  cid ∉ members r (room_del cid r R).
Proof.
  rewrite members_del. intros Hin.
  apply list_elem_of_filter in Hin as [Hne _]. congruence.
Qed.

(** Once the game service and the log service have accepted a join, an
    open or a watch, the caller's socket is in the room of the game the
    service returned, whether or not the broadcast that follows goes
    through; once they have accepted a leave or a close, it is not. *)
Theorem caller_follows_the_command cmd c w g d entry d' :
  mutation svc cmd c (db w) = Some (inr (g, d)) ->
  command_log cmd c g = Some entry ->
  logService_create svc entry d = inr d' ->
  (enters_room cmd = true ->
   client_id c ∈ room_members (game_id g) (snd (handle svc cmd c w))) /\
  (leaves_room cmd = true ->
   client_id c ∉ room_members (game_id g) (snd (handle svc cmd c w))).
Proof.
  intros Hmut Hentry Hlog.
  destruct (handle svc cmd c w) as [r w'] eqn:H. cbn [snd].
  split; intros Hk; destruct cmd; try discriminate;
    cbn [mutation command_log] in Hmut, Hentry;
    unfold handle, joinGame, openGame, watchGame, leaveGame, closeGame in H;
    exec H; cbn [db set_db] in *; simplify_eq;
    try congruence; unfold room_members; world_fields;
    first [ apply room_add_here | apply room_del_here ].
Qed.

(** *** Presence: the other paths *)

(** A connect that passes the guard, of a user with an opened game and
    no pending disconnect, the log service accepting the entry and the
    game being found: the guard is installed, the socket is in the room
    of the opened game, one ["connect"] entry is in the log, every member
    of the room of the game with a user attached is sent its own view of
    the refreshed game, and the summary goes to everybody. *)
Theorem first_connect_is_announced client w user og d game :
  connectTimers w !! sock_token client = None ->
  findOneByUserId svc (getUserIdByToken svc (sock_token client)) (db w)
    = Some user ->
  openedGame user = Some og ->
  disconnectTimers w !! user_id user = None ->
  logService_create svc (mk_log "connect" user (ref_id og) None) (db w)
    = inr d ->
  findOne svc (ref_number og) d = Some game ->
  (forall sid,
     sid ∈ members (game_id game)
             (room_add (sock_id client) (ref_id og) (rooms w)) ->
     is_Some (find_socket sid w)) ->
  let joined := set_rooms (room_add (sock_id client) (ref_id og) (rooms w)) w in
  let w' := snd (handleConnection svc client w) in
  fst (handleConnection svc client w) = Done tt /\
  connectTimers w' !! sock_token client = Some (next_timer w) /\
  rooms w' = room_add (sock_id client) (ref_id og) (rooms w) /\
  logs w' = logs w ++ [mk_log "connect" user (ref_id og) None] /\
  outbox w' =
    outbox w ++
    room_messages (view_message svc game)
      (room_members (game_id game) joined) joined ++
    [{| em_target := ToAll; em_event := "update-game";
        em_data := PView (parseGameForAllUsers svc game) |}] /\
  db w' = d.
Proof.
  intros Hguard Hu Hog Hnone Hlog Hgame Hconn joined w'.
  assert (E : handleConnection svc client w =
    (Done tt,
     set_outbox
       (outbox w ++
        room_messages (view_message svc game)
          (room_members (game_id game) joined) joined ++
        [{| em_target := ToAll; em_event := "update-game";
            em_data := PView (parseGameForAllUsers svc game) |}])
       (set_logs (logs w ++ [mk_log "connect" user (ref_id og) None])
          (set_db d
             (set_rooms (room_add (sock_id client) (ref_id og) (rooms w))
                (set_connectTimers
                   (<[sock_token client := next_timer w]> (connectTimers w))
                   (set_timers (S (next_timer w))
                      (pending w ++ [guard_timer (sock_token client) w])
                      w))))))).
  { unfold handleConnection, join, setTimeout, modify, bind at 1, get.
    rewrite Hguard, (resolved_token _ _ _ Hu).
    unfold bind at 1. unfold bind at 1. unfold bind at 1, get.
    world_fields. rewrite Hu, Hog. unfold bind at 1. unfold bind at 1, get.
    world_fields. rewrite Hnone.
    unfold bind, log_create, broadcast_game, bind, findOne_parsed, emit, modify.
    world_fields. rewrite Hlog. world_fields. rewrite Hgame.
    set (W := set_logs _ _).
    destruct (sendGameToGameUsers_effect game W) as (new & Hw & _ & Hall).
    destruct Hall as [Hd Hn]; [exact Hconn|].
    destruct (sendGameToGameUsers svc game W) as [r W']. cbn [fst snd] in *.
    subst r W' new. rewrite set_outbox_twice. reflexivity. }
  subst w'. rewrite E. cbn [fst snd]. world_fields.
  split; [reflexivity|]. split; [apply lookup_insert_eq|]. repeat split.
Qed.

(** A connection whose token resolves to no user leaves no trace but the
    connect guard: its connect joins no room, logs and emits nothing and
    cancels no disconnect; its disconnect schedules nothing and leaves
    the state exactly as it was. *)
Theorem anonymous_connection_leaves_no_trace client w :
  findOneByUserId svc (getUserIdByToken svc (sock_token client)) (db w) = None ->
  handleDisconnect svc client w = (Done tt, w) /\
  (let w' := snd (handleConnection svc client w) in
   rooms w' = rooms w /\ logs w' = logs w /\ outbox w' = outbox w /\
   db w' = db w /\ disconnectTimers w' = disconnectTimers w).
Proof.
  intros Hu. split.
  - unfold handleDisconnect, bind, get. now rewrite Hu.
  - unfold handleConnection, bind, get.
    destruct (connectTimers w !! sock_token client); [repeat split|].
    destruct (inherited (sock_token client)); [repeat split|].
    cbn. rewrite Hu. repeat split.
Qed.






(** *** The tables and the timers stay in agreement *)

Lemma NoDup_ids_filter (P : Timer -> Prop) `{forall x, Decision (P x)} l :
  NoDup (map timer_id l) -> NoDup (map timer_id (filter P l)).
Proof.
  induction l as [|a l IH]; intros Hnd; [exact Hnd|].
  cbn [map] in Hnd. apply NoDup_cons in Hnd as [Hnot Hnd].
  rewrite filter_cons. destruct (decide (P a)); [|auto].
  cbn [map]. apply NoDup_cons. split; [|auto].
  intros Hin. apply Hnot. apply list_elem_of_fmap in Hin as (x & Hx & Hin).
  apply list_elem_of_filter in Hin as [_ Hin].
  apply list_elem_of_fmap. eauto.
Qed.

Lemma NoDup_ids_inj (l : list Timer) a b :
  NoDup (map timer_id l) -> a ∈ l -> b ∈ l -> timer_id a = timer_id b -> a = b.
Proof.
  induction l as [|x l IH]; intros Hnd Ha Hb Heq; [inversion Ha|].
  cbn [map] in Hnd. apply NoDup_cons in Hnd as [Hnot Hnd].
  apply elem_of_cons in Ha as [->|Ha]; apply elem_of_cons in Hb as [->|Hb].
  - reflexivity.
  - exfalso. apply Hnot. rewrite Heq. apply list_elem_of_fmap. eauto.
  - exfalso. apply Hnot. rewrite <- Heq. apply list_elem_of_fmap. eauto.
  - now apply IH.
Qed.

Lemma NoDup_ids_snoc (l : list Timer) (T : Timer) :
  NoDup (map timer_id l) ->
  (forall tm, tm ∈ l -> timer_id tm <> timer_id T) ->
  NoDup (map timer_id (l ++ [T])).
Proof.
  intros Hnd Hfresh. rewrite map_app. apply NoDup_app. split; [exact Hnd|].
  split; [|apply NoDup_singleton].
  intros x Hx Hin. apply list_elem_of_singleton in Hin as ->.
  apply list_elem_of_fmap in Hx as (tm & Heq & Htm). now apply (Hfresh tm).
Qed.

Lemma presence_ok_initial w :
  pending w = [] -> connectTimers w = ∅ -> disconnectTimers w = ∅ ->
  presence_ok w.
Proof.
  intros Hp Hc Hd. constructor.
  - now apply timers_ok_initial.
  - rewrite Hp. constructor.
  - intros k h Hk. rewrite Hc, lookup_empty in Hk. discriminate.
  - intros k tm Hk. rewrite Hd, lookup_empty in Hk. discriminate.
Qed.

Lemma presence_ok_fire tm w :
  presence_ok w ->
  tm ∈ pending w \/ timer_id tm ∉ map timer_id (pending w) ->
  presence_ok (fire svc tm w).
Proof.
  intros Hok Hin. pose proof (timers_ok_fire tm w (presence_timers w Hok) Hin) as Ht.
  unfold fire in *.
  destruct (decide (timer_id tm ∈ map timer_id (pending w))) as [Hid|]; [|exact Hok].
  destruct Hin as [Hin|Hnot]; [|contradiction].
  set (W := set_timers _ _ w) in *.
  destruct (run_action_timers (timer_action tm) W) as [Hp Hn].
  destruct (run_action_maps (timer_action tm) W) as [Hd Hc].
  constructor; [exact Ht| | |].
  - rewrite Hp. cbn. apply NoDup_ids_filter, (presence_nodup w Hok).
  - intros k h Hk. rewrite Hp. rewrite Hc in Hk. cbn in *.
    assert (connectTimers w !! k = Some h /\ timer_action tm <> ClearConnect k)
      as [Hk' Hne].
    { destruct (timer_action tm) as [token|u cl].
      - apply lookup_delete_Some in Hk as [Hne Hk]. split; [exact Hk|congruence].
      - split; [exact Hk|discriminate]. }
    destruct (guard_has_timer w Hok k h Hk') as (x & Hx & Hxid & Hxa).
    exists x. split; [|auto]. apply list_elem_of_filter. split; [|exact Hx].
    intros Heq. apply Hne.
    rewrite <- (NoDup_ids_inj _ x tm (presence_nodup w Hok) Hx Hin Heq).
    exact Hxa.
  - intros k x Hk Hx. rewrite Hp in Hx. cbn in Hx.
    apply list_elem_of_filter in Hx as [_ Hx]. apply Hd in Hk. cbn in Hk.
    exact (disconnect_handle_kind w Hok k x Hk Hx).
Qed.

Lemma presence_ok_fold (D : list Timer) : forall w,
  presence_ok w ->
  (forall tm, tm ∈ D -> tm ∈ pending w \/ timer_id tm ∉ map timer_id (pending w)) ->
  presence_ok (fold_left (fun w tm => fire svc tm w) D w).
Proof.
  induction D as [|tm D IH]; intros w Hok HD; [exact Hok|].
  cbn [fold_left]. apply IH.
  - apply presence_ok_fire; [exact Hok|]. apply HD. now left.
  - intros x Hx. destruct (fire_pending tm w) as [-> _].
    destruct (HD x) as [Hin|Hnot]; [now right| |].
    + destruct (decide (timer_id x = timer_id tm)) as [Heq|Hne].
      * right. intros Hm. apply list_elem_of_fmap in Hm as (y & Hy & Hm).
        apply list_elem_of_filter in Hm as [Hm _]. congruence.
      * left. apply list_elem_of_filter. auto.
    + right. intros Hm. apply Hnot.
      apply list_elem_of_fmap in Hm as (y & Hy & Hm).
      apply list_elem_of_filter in Hm as [_ Hm].
      apply list_elem_of_fmap. eauto.
Qed.

Lemma presence_ok_set_now t w : presence_ok w -> presence_ok (set_now t w).
Proof.
  intros [[H1 H2 H3] H4 H5 H6]. constructor; [constructor|..]; assumption.
Qed.

Lemma presence_ok_advance t w : presence_ok w -> presence_ok (advance svc t w).
Proof.
  intros Hok. unfold advance. apply presence_ok_set_now, presence_ok_fold;
    [exact Hok|].
  intros tm Htm. left. unfold due in Htm.
  now apply list_elem_of_filter in Htm as [_ Htm].
Qed.

Lemma handleConnection_shape client w :
  connectTimers w !! sock_token client = None ->
  inherited (sock_token client) = false ->
  let w1 := snd (handleConnection svc client w) in
  (pending w1 = pending w ++ [guard_timer (sock_token client) w] /\
   disconnectTimers w1 = disconnectTimers w) \/
  (exists uid h,
     disconnectTimers w !! uid = Some h /\
     pending w1 =
       filter (fun tm => timer_id tm ≠ h)
         (pending w ++ [guard_timer (sock_token client) w]) /\
     disconnectTimers w1 = delete uid (disconnectTimers w)).
Proof.
  intros Hguard Hinh.
  destruct (handleConnection svc client w) as [r w1] eqn:H. cbn [snd].
  unfold handleConnection in H. unfold bind at 1, get in H.
  rewrite Hguard, Hinh in H. exec H; exec_done H w1; world_fields;
    try (left; split; reflexivity).
  right. cbn in E1. eexists _, _. split; [exact E1|]. split; reflexivity.
Qed.

Lemma presence_ok_handleConnection client w :
  presence_ok w -> presence_ok (snd (handleConnection svc client w)).
Proof.
  intros Hok.
  pose proof (timers_ok_handleConnection client w (presence_timers w Hok)) as Ht.
  destruct (connectTimers w !! sock_token client) as [h|] eqn:Hguard.
  { rewrite (handleConnection_debounced client w h Hguard). exact Hok. }
  destruct (inherited (sock_token client)) eqn:Hinh.
  { rewrite (handleConnection_ignored client w Hinh). exact Hok. }
  destruct (handleConnection_installs client w Hguard Hinh) as [Hct Hnt].
  assert (Hfresh : forall tm, tm ∈ pending w ->
            timer_id tm <> timer_id (guard_timer (sock_token client) w)).
  { intros tm Htm. apply (pending_fresh w (presence_timers w Hok)) in Htm.
    cbn. lia. }
  assert (Hold : forall k h, k <> sock_token client ->
            connectTimers w !! k = Some h ->
            exists tm, tm ∈ pending w /\ timer_id tm = h /\
                       timer_action tm = ClearConnect k)
    by (intros k h _; apply (guard_has_timer w Hok)).
  destruct (handleConnection_shape client w Hguard Hinh)
    as [[HP HD]|(uid & h & Hh & HP & HD)].
  - constructor; [exact Ht|..].
    + rewrite HP. apply NoDup_ids_snoc; [apply (presence_nodup w Hok)|exact Hfresh].
    + intros k h Hk. rewrite Hct in Hk. rewrite HP.
      apply lookup_insert_Some in Hk as [[<- <-]|[Hne Hk]].
      * exists (guard_timer (sock_token client) w).
        split; [apply elem_of_app; right; now left|]. split; reflexivity.
      * destruct (Hold k h (not_eq_sym Hne) Hk) as (tm & Htm & Hr).
        exists tm. split; [apply elem_of_app; now left | exact Hr].
    + intros k tm Hk Htm. rewrite HD in Hk. rewrite HP in Htm.
      apply elem_of_app in Htm as [Htm|Htm].
      * exact (disconnect_handle_kind w Hok k tm Hk Htm).
      * apply list_elem_of_singleton in Htm as ->. cbn in Hk.
        apply (disconnect_fresh w (presence_timers w Hok)) in Hk. lia.
  - constructor; [exact Ht|..].
    + rewrite HP. apply NoDup_ids_filter, NoDup_ids_snoc;
        [apply (presence_nodup w Hok)|exact Hfresh].
    + intros k h0 Hk. rewrite Hct in Hk. rewrite HP.
      pose proof (disconnect_fresh w (presence_timers w Hok) uid h Hh) as Hlt.
      apply lookup_insert_Some in Hk as [[<- <-]|[Hne Hk]].
      * exists (guard_timer (sock_token client) w). split; [|split; reflexivity].
        apply list_elem_of_filter. split; [cbn; lia|].
        apply elem_of_app; right; now left.
      * destruct (Hold k h0 (not_eq_sym Hne) Hk) as (tm & Htm & Hid & Ha).
        exists tm. split; [|auto]. apply list_elem_of_filter. split.
        -- intros Heq. rewrite <- Heq in Hh.
           destruct (disconnect_handle_kind w Hok uid tm Hh Htm) as (u & c & Hc).
           congruence.
        -- apply elem_of_app. now left.
    + intros k tm Hk Htm. rewrite HD in Hk. rewrite HP in Htm.
      apply lookup_delete_Some in Hk as [_ Hk].
      apply list_elem_of_filter in Htm as [_ Htm].
      apply elem_of_app in Htm as [Htm|Htm].
      * exact (disconnect_handle_kind w Hok k tm Hk Htm).
      * apply list_elem_of_singleton in Htm as ->. cbn in Hk.
        apply (disconnect_fresh w (presence_timers w Hok)) in Hk. lia.
Qed.

Lemma presence_ok_handleDisconnect client w :
  presence_ok w -> presence_ok (snd (handleDisconnect svc client w)).
Proof.
  intros Hok.
  pose proof (timers_ok_handleDisconnect client w (presence_timers w Hok)) as Ht.
  destruct (handleDisconnect svc client w) as [r w1] eqn:H. cbn [snd] in *.
  unfold handleDisconnect in H. exec H; exec_done H w1; try exact Hok.
  constructor; [exact Ht|..]; world_fields.
  - apply NoDup_ids_snoc; [apply (presence_nodup w Hok)|].
    intros tm Htm. apply (pending_fresh w (presence_timers w Hok)) in Htm.
    cbn. lia.
  - intros k h Hk. destruct (guard_has_timer w Hok k h Hk) as (tm & Htm & Hr).
    exists tm. split; [apply elem_of_app; now left | exact Hr].
  - intros k tm Hk Htm. apply elem_of_app in Htm as [Htm|Htm].
    + apply lookup_insert_Some in Hk as [[_ Heq]|[_ Hk]].
      * apply (pending_fresh w (presence_timers w Hok)) in Htm. lia.
      * exact (disconnect_handle_kind w Hok k tm Hk Htm).
    + apply list_elem_of_singleton in Htm as ->. cbn. eauto.
Qed.

Lemma presence_ok_socket_opens client w :
  presence_ok w -> presence_ok (socket_opens client w).
Proof.
  intros [Ht H1 H2 H3].
  constructor; [now apply timers_ok_socket_opens|assumption..].
Qed.

Lemma presence_ok_socket_closes client w :
  presence_ok w -> presence_ok (socket_closes client w).
Proof.
  intros [Ht H1 H2 H3].
  constructor; [now apply timers_ok_socket_closes|assumption..].
Qed.

Lemma presence_ok_step w e : presence_ok w -> presence_ok (step svc w e).
Proof.
  intros Hok. unfold step. apply (presence_ok_advance (fst e)) in Hok.
  destruct (snd e) as [client|client|c cmd].
  - now apply presence_ok_handleConnection, presence_ok_socket_opens.
  - now apply presence_ok_handleDisconnect, presence_ok_socket_closes.
  - pose proof (timers_ok_step (advance svc (fst e) w) (fst e, Message c cmd)) as Ht.
    destruct (handle_timers cmd c (advance svc (fst e) w)) as (Hp & Hn & Hc & Hd).
    destruct Hok as [[H1 H2 H3] H4 H5 H6].
    constructor; [constructor|..]; rewrite ?Hp, ?Hn, ?Hc, ?Hd; assumption.
Qed.


(** The presence tables and the pending timers agree at every point of a
    run that starts from a state where they do (a gateway that has
    scheduled nothing, for one): no two pending timers share a
    handle, every handle in use is below the next one, every entry of the
    connect table has its clearing timer pending and every pending
    clearing timer is the one its token's entry points to. *)
Theorem presence_stays_consistent es w :
  presence_ok w -> presence_ok (run svc es w).
Proof.
  revert w. induction es as [|e es IH]; intros w Hok; [exact Hok|].
  cbn [run fold_left]. apply IH, presence_ok_step, Hok.
Qed.

Lemma fire_keeps_cleared tm w k :
  connectTimers w !! k = None -> connectTimers (fire svc tm w) !! k = None.
Proof.
  intros Hk. unfold fire. destruct (decide _); [|exact Hk].
  match goal with
  | |- connectTimers (snd (run_action svc ?a ?W)) !! _ = _ =>
      destruct (run_action_maps a W) as [_ ->]
  end.
  destruct (timer_action tm); cbn; [|exact Hk].
  apply lookup_delete_None. now right.
Qed.

(** *** When a timer runs, and that it does not come back *)

Lemma fold_fire_pending (D : list Timer) : forall w,
  next_timer (fold_left (fun w tm => fire svc tm w) D w) = next_timer w /\
  (forall x, x ∈ pending (fold_left (fun w tm => fire svc tm w) D w) ->
             x ∈ pending w).
Proof.
  induction D as [|tm D IH]; intros w; [split; auto|].
  cbn [fold_left]. destruct (IH (fire svc tm w)) as [Hn Hp].
  destruct (fire_pending tm w) as [Hfp Hfn]. split; [congruence|].
  intros x Hx. apply Hp in Hx. rewrite Hfp in Hx.
  now apply list_elem_of_filter in Hx as [_ Hx].
Qed.




Lemma advance_fires tm t w :
  NoDup (map timer_id (pending w)) -> tm ∈ pending w -> fire_at tm <= t ->
  exists before after,
    due t w = before ++ tm :: after /\
    tm ∈ pending (fold_left (fun w x => fire svc x w) before w) /\
    advance svc t w =
      set_now t
        (fold_left (fun w x => fire svc x w) after
           (fire svc tm (fold_left (fun w x => fire svc x w) before w))) /\
    timer_id tm ∉ map timer_id (pending (advance svc t w)).
Proof.
  intros Hnd Htm Ht.
  assert (Hdue : tm ∈ due t w) by (apply list_elem_of_filter; auto).
  assert (Hndd : NoDup (map timer_id (due t w)))
    by apply NoDup_ids_filter, Hnd.
  apply list_elem_of_split in Hdue as (D1 & D2 & HD).
  exists D1, D2. split; [exact HD|].
  assert (HT : tm ∈ pending (fold_left (fun w x => fire svc x w) D1 w)).
  { apply fold_fire_keeps; [exact Htm|]. intros x Hx Heq.
    rewrite HD, map_app in Hndd. apply NoDup_app in Hndd as (_ & Hdis & _).
    apply (Hdis (timer_id x)); [apply list_elem_of_fmap; eauto|].
    cbn [map]. rewrite Heq. now left. }
  split; [exact HT|].
  assert (E : advance svc t w =
      set_now t
        (fold_left (fun w x => fire svc x w) D2
           (fire svc tm (fold_left (fun w x => fire svc x w) D1 w)))).
  { unfold advance. rewrite HD, fold_left_app. reflexivity. }
  split; [exact E|]. rewrite E. cbn [pending set_now].
  intros Hin. apply list_elem_of_fmap in Hin as (x & Hid & Hx).
  apply fold_fire_pending in Hx.
  destruct (fire_pending tm (fold_left (fun w x => fire svc x w) D1 w))
    as [Hfp _].
  rewrite Hfp in Hx. apply list_elem_of_filter in Hx as [Hne _]. congruence.
Qed.



(** *** Reconnect *)



(** *** The guard expires *)

(** Every entry of the connect table has its clearing timer pending, and
    is gone once the clock has reached the time of that timer, whatever
    other timers fire on the way; a connect with that token that arrives
    from then on passes the guard again and installs a new entry,
    provided the token does not name an inherited property (no entry is
    ever installed for one that does). *)
Theorem guard_always_expires w k h :
  presence_ok w ->
  connectTimers w !! k = Some h ->
  inherited k = false ->
  exists tm,
    tm ∈ pending w /\ timer_id tm = h /\ timer_action tm = ClearConnect k /\
    forall t, fire_at tm <= t ->
      connectTimers (advance svc t w) !! k = None /\
      forall again, sock_token again = k ->
        connectTimers (snd (handleConnection svc again (advance svc t w))) !! k
        = Some (next_timer (advance svc t w)).
Proof.
  intros Hok Hk Hinh.
  destruct (guard_has_timer w Hok k h Hk) as (tm & Htm & Hid & Ha).
  exists tm. split; [exact Htm|]. split; [exact Hid|]. split; [exact Ha|].
  intros t Ht.
  assert (Hnone : connectTimers (advance svc t w) !! k = None).
  { destruct (advance_fires tm t w (presence_nodup w Hok) Htm Ht)
      as (D1 & D2 & _ & HT & -> & _).
    cbn [connectTimers set_now].
    set (W := fold_left _ D1 w) in *.
    assert (Hgone : connectTimers (fire svc tm W) !! k = None).
    { unfold fire. destruct (decide _) as [_|Hn].
      - rewrite Ha. cbn. apply lookup_delete_eq.
      - exfalso. apply Hn. apply list_elem_of_fmap. eauto. }
    revert Hgone. generalize (fire svc tm W).
    induction D2 as [|x D2 IH]; intros W' Hgone; [exact Hgone|].
    cbn [fold_left]. apply IH, fire_keeps_cleared, Hgone. }
  split; [exact Hnone|]. intros again Htok.
  destruct (handleConnection_installs again (advance svc t w)) as [-> _].
  - now rewrite Htok.
  - now rewrite Htok.
  - rewrite Htok. apply lookup_insert_eq.
Qed.

End GatewayFacts.

(** * Properties of the schemas and of the user controller *)

Section SchemaFacts.

Context {V : Type} (undefined : V).

(** What [toJSON] hands out: [id] holds what [_id] held, [_id] and [__v]
    are gone, every other property is as it was; and the transform is
    not to be applied twice, for the second pass finds no [_id] and sets
    [id] to [undefined]. *)
Theorem transform_renames_the_id (ret : gmap string V) :
  transform undefined ret !! "id" = Some (default undefined (ret !! "_id")) /\
  transform undefined ret !! "_id" = None /\
  transform undefined ret !! "__v" = None /\
  (forall k, k <> "id" -> k <> "_id" -> k <> "__v" ->
             transform undefined ret !! k = ret !! k) /\
  transform undefined (transform undefined ret) !! "id" = Some undefined.
Proof.
  assert (Hid : forall r : gmap string V,
            transform undefined r !! "id"
            = Some (default undefined (r !! "_id"))).
  { intros r. unfold transform.
    rewrite lookup_delete_ne by discriminate.
    rewrite lookup_delete_ne by discriminate. apply lookup_insert_eq. }
  assert (H_id : forall r : gmap string V, transform undefined r !! "_id" = None).
  { intros r. unfold transform. rewrite lookup_delete_ne by discriminate.
    apply lookup_delete_eq. }
  split; [apply Hid|]. split; [apply H_id|]. split.
  { unfold transform. apply lookup_delete_eq. }
  split.
  - intros k H1 H2 H3. unfold transform.
    rewrite lookup_delete_ne by congruence.
    rewrite lookup_delete_ne by congruence.
    rewrite lookup_insert_ne by congruence. reflexivity.
  - rewrite Hid, H_id. reflexivity.
Qed.

End SchemaFacts.

(** *** The patterns *)

Lemma lang_nil_nullable r s : lang r s -> s = [] -> nullable r = true.
Proof.
  induction 1; intros Hnil; cbn; try reflexivity; try discriminate.
  - apply app_eq_nil in Hnil as [-> ->]. now rewrite IHlang1, IHlang2.
  - now rewrite IHlang.
  - rewrite IHlang by assumption. apply orb_true_r.
Qed.

Lemma nullable_lang r : nullable r = true -> lang r [].
Proof.
  induction r; cbn; intros Hn; try discriminate.
  - constructor.
  - apply andb_true_iff in Hn as [H1 H2].
    change (lang (Cat r1 r2) ([] ++ [])). constructor; auto.
  - apply orb_true_iff in Hn as [Hn|Hn];
      [apply lang_alt_l | apply lang_alt_r]; auto.
  - constructor.
Qed.

Lemma lang_void s : lang Void s -> False.
Proof. intros Hl. inversion Hl. Qed.

Lemma lang_cat_eps_l r s : lang (Cat Eps r) s <-> lang r s.
Proof.
  split.
  - intros Hl. inversion Hl as [| |? ? ? ? H1 H2| | | |]; subst.
    now inversion H1.
  - intros Hl. change (lang (Cat Eps r) ([] ++ s)). constructor; [constructor|auto].
Qed.

Lemma lang_cat_eps_r r s : lang (Cat r Eps) s <-> lang r s.
Proof.
  split.
  - intros Hl. inversion Hl as [| |? ? ? ? H1 H2| | | |]; subst.
    inversion H2; subst. now rewrite app_nil_r.
  - intros Hl. rewrite <- (app_nil_r s). constructor; [auto|constructor].
Qed.

Lemma lang_cat_void_l r s : lang (Cat Void r) s -> False.
Proof.
  intros Hl. inversion Hl as [| |? ? ? ? H1 H2| | | |]; subst. inversion H1.
Qed.

Lemma lang_cat_void_r r s : lang (Cat r Void) s -> False.
Proof.
  intros Hl. inversion Hl as [| |? ? ? ? H1 H2| | | |]; subst. inversion H2.
Qed.

Lemma lang_cat_smart r1 r2 s : lang (cat r1 r2) s <-> lang (Cat r1 r2) s.
Proof.
  destruct r1, r2; cbn [cat]; try reflexivity;
    try (split; [intros Hl; now apply lang_void in Hl
                |intros Hl; exfalso;
                 first [now apply lang_cat_void_l in Hl
                       |now apply lang_cat_void_r in Hl]]);
    try (symmetry; apply lang_cat_eps_l);
    try (symmetry; apply lang_cat_eps_r).
Qed.

Lemma lang_alt_smart r1 r2 s : lang (alt r1 r2) s <-> lang (Alt r1 r2) s.
Proof.
  assert (Hl : forall r, lang r s <-> lang (Alt Void r) s).
  { intros r. split; [apply lang_alt_r|].
    intros Hl. inversion Hl; subst; [exfalso; eapply lang_void; eauto | auto]. }
  assert (Hr : forall r, lang r s <-> lang (Alt r Void) s).
  { intros r. split; [apply lang_alt_l|].
    intros Hx. inversion Hx; subst; [auto | exfalso; eapply lang_void; eauto]. }
  destruct r1, r2; cbn [alt]; try reflexivity; first [apply Hl | apply Hr].
Qed.

Lemma deriv_sound a r : forall s, lang (deriv a r) s -> lang r (a :: s).
Proof.
  induction r; cbn [deriv]; intros s Hd.
  - inversion Hd.
  - inversion Hd.
  - destruct (p a) eqn:Hp; inversion Hd; subst. now constructor.
  - destruct (nullable r1) eqn:Hn.
    + apply lang_alt_smart in Hd.
      inversion Hd as [| | |? ? ? Hl|? ? ? Hr| |]; subst.
      * apply lang_cat_smart in Hl. inversion Hl; subst.
        change (lang (Cat r1 r2) ((a :: s1) ++ s2)). constructor; auto.
      * change (lang (Cat r1 r2) ([] ++ a :: s)).
        constructor; [now apply nullable_lang | auto].
    + apply lang_cat_smart in Hd. inversion Hd; subst.
      change (lang (Cat r1 r2) ((a :: s1) ++ s2)). constructor; auto.
  - apply lang_alt_smart in Hd.
    inversion Hd; subst; [apply lang_alt_l | apply lang_alt_r]; auto.
  - apply lang_cat_smart in Hd. inversion Hd; subst.
    change (lang (Star r) ((a :: s1) ++ s2)). constructor; auto.
Qed.

Lemma deriv_complete r s : lang r s -> forall a s', s = a :: s' -> lang (deriv a r) s'.
Proof.
  induction 1; intros a0 s' Heq; cbn [deriv]; try discriminate.
  - injection Heq as -> <-. rewrite H. constructor.
  - destruct s1 as [|b s1].
    + cbn in Heq. subst s2.
      rewrite (lang_nil_nullable r1 [] H eq_refl).
      apply lang_alt_smart, lang_alt_r. now apply IHlang2.
    + cbn in Heq. injection Heq as -> <-.
      destruct (nullable r1);
        [apply lang_alt_smart, lang_alt_l|]; apply lang_cat_smart;
        constructor; auto.
  - apply lang_alt_smart, lang_alt_l. now apply IHlang.
  - apply lang_alt_smart, lang_alt_r. now apply IHlang.
  - destruct s1 as [|b s1].
    + cbn in Heq. now apply IHlang2.
    + cbn in Heq. injection Heq as -> <-. apply lang_cat_smart.
      constructor; auto.
Qed.

Lemma matches_lang r s : matches r s = true <-> lang r s.
Proof.
  revert r. induction s as [|a s IH]; intros r; cbn [matches].
  - split; [apply nullable_lang | intros Hl; now apply (lang_nil_nullable r [])].
  - rewrite IH. split; [apply deriv_sound | intros Hl; now apply (deriv_complete r (a :: s))].
Qed.

Lemma lang_star_any s : lang (Star any) s.
Proof.
  induction s as [|a s IH]; [constructor|].
  change (lang (Star any) ([a] ++ s)). constructor; [now constructor | exact IH].
Qed.

Lemma lang_rep_chr n p : forall s,
  lang (rep n (Chr p)) s <-> length s = n /\ Forall (fun a => p a = true) s.
Proof.
  induction n as [|n IH]; intros s; cbn [rep].
  - split.
    + intros Hl. inversion Hl. split; [reflexivity | constructor].
    + intros [Hlen _]. destruct s; [constructor | discriminate].
  - split.
    + intros Hl. inversion Hl as [| |? ? ? ? H1 H2| | | |]; subst.
      inversion H1; subst. apply IH in H2 as [Hlen Hall].
      split; [cbn; now rewrite Hlen | now constructor].
    + intros [Hlen Hall]. destruct s as [|a s]; [discriminate|].
      inversion Hall; subst. change (lang (Cat (Chr p) (rep n (Chr p))) ([a] ++ s)).
      constructor; [now constructor|]. apply IH. split; [now injection Hlen | auto].
Qed.

Lemma lang_upto_chr k p : forall s,
  lang (upto k (Chr p)) s -> Forall (fun a => p a = true) s.
Proof.
  induction k as [|k IH]; intros s Hl; cbn [upto] in Hl.
  - inversion Hl. constructor.
  - inversion Hl as [| | |? ? ? Hx|? ? ? Hx| |]; subst.
    + inversion Hx. constructor.
    + inversion Hx as [| |? ? ? ? H1 H2| | | |]; subst.
      inversion H1; subst. constructor; [assumption | now apply IH].
Qed.

Lemma lang_upto_nil k r : lang (upto k r) [].
Proof. destruct k; cbn [upto]; [constructor | apply lang_alt_l; constructor]. Qed.

Lemma lang_rep_range m n p s :
  lang (rep_range m n (Chr p)) s ->
  (m <= length s)%nat /\ Forall (fun a => p a = true) s.
Proof.
  unfold rep_range. intros Hl.
  inversion Hl as [| |? ? ? ? H1 H2| | | |]; subst.
  apply lang_rep_chr in H1 as [Hlen Hall]. apply lang_upto_chr in H2.
  split; [rewrite length_app; lia | apply Forall_app; auto].
Qed.

(** An unanchored repetition [[c]{m,n}] is found in a string exactly when
    the string holds [m] characters of the class in a row. *)
Lemma test_rep_range m n p s :
  test (rep_range m n (Chr p)) s = true <-> has_run m p s.
Proof.
  unfold test, has_run. rewrite matches_lang. split.
  - intros Hl. inversion Hl as [| |? ? pre rest _ H2| | | |]; subst.
    inversion H2 as [| |? ? mid post H3 _| | | |]; subst.
    apply lang_rep_range in H3 as [Hlen Hall].
    exists pre, (take m mid), (drop m mid ++ post).
    rewrite app_assoc, (app_assoc (take m mid)), take_drop, <- app_assoc.
    split; [congruence|]. split; [rewrite length_take; lia|].
    now apply Forall_take.
  - intros (pre & mid & post & -> & Hlen & Hall).
    constructor; [apply lang_star_any|]. constructor; [|apply lang_star_any].
    unfold rep_range. rewrite <- (app_nil_r mid).
    constructor; [now apply lang_rep_chr | apply lang_upto_nil].
Qed.

(** The username and the password checks of the controller look for a
    run of alphanumeric characters anywhere in the input: a username
    passes exactly when it holds three of them in a row, a password when
    it holds six.  Neither the upper bound 30 of the patterns nor the
    other characters of the input play any part. *)
Theorem name_and_password_checks_look_for_a_run :
  (forall s, test usernameRegexp s = true <-> has_run 3 is_alnum s) /\
  (forall s, test passwordRegexp s = true <-> has_run 6 is_alnum s).
Proof. split; intros s; apply test_rep_range. Qed.

Lemma lang_star_chr p s :
  lang (Star (Chr p)) s -> Forall (fun a => p a = true) s.
Proof.
  intros Hl. remember (Star (Chr p)) as r eqn:Hr.
  induction Hl; try discriminate; [constructor|].
  injection Hr as ->. apply Forall_app. split; [|auto].
  inversion Hl1; subst. repeat constructor; auto.
Qed.

Lemma lang_plus_chr p s :
  lang (plus (Chr p)) s -> s <> [] /\ Forall (fun a => p a = true) s.
Proof.
  unfold plus. intros Hl. inversion Hl as [| |? ? ? ? H1 H2| | | |]; subst.
  inversion H1; subst. apply lang_star_chr in H2.
  split; [discriminate | now constructor].
Qed.

Lemma lang_cat_chr_first c r s :
  lang (Cat (Chr (is_char c)) r) s -> exists rest, s = c :: rest /\ lang r rest.
Proof.
  intros Hl. inversion Hl as [| |? ? ? ? H1 H2| | | |]; subst.
  inversion H1 as [|? a Ha| | | | |]; subst.
  apply Ascii.eqb_eq in Ha as ->. eauto.
Qed.

Lemma lang_cat_has (c : Ascii.ascii) r1 r2 s :
  (forall x, lang r1 x -> c ∈ x) \/ (forall x, lang r2 x -> c ∈ x) ->
  lang (Cat r1 r2) s -> c ∈ s.
Proof.
  intros Hc Hl. inversion Hl; subst. apply elem_of_app.
  destruct Hc as [Hc|Hc]; [left | right]; auto.
Qed.

Lemma lang_chr_has c s : lang (Chr (is_char c)) s -> c ∈ s.
Proof.
  intros Hl. inversion Hl as [|? a Ha| | | | |]; subst.
  apply Ascii.eqb_eq in Ha as ->. now left.
Qed.

(** An address passes the e-mail check only if it has a non-empty part
    made of letters, digits, ["_"], ["-"] and ["."] before an ["@"], and
    a ["."] somewhere after that ["@"]: no ["@"], or no dot behind it, and
    the address is refused. *)
Theorem email_check_needs_at_and_dot s :
  test_anchored emailRegexp s = true ->
  exists local rest,
    String.list_ascii_of_string s = local ++ "@"%char :: rest /\
    local <> [] /\ Forall (fun a => is_local a = true) local /\
    "."%char ∈ rest.
Proof.
  unfold test_anchored. rewrite matches_lang. unfold emailRegexp. cbv zeta.
  intros Hl. inversion Hl as [| |? ? local tail Hlocal Htail| | | |]; subst.
  apply lang_plus_chr in Hlocal as [Hne Hall].
  apply lang_cat_chr_first in Htail as (rest & -> & Hrest).
  exists local, rest. split; [congruence|]. split; [exact Hne|].
  split; [exact Hall|].
  revert Hrest. apply lang_cat_has. left. intros x Hx.
  inversion Hx as [| | |? ? ? Ha|? ? ? Hd| |]; subst.
  - revert Ha. apply lang_cat_has. right. intros y.
    apply lang_cat_has. right. intros z.
    apply lang_cat_has. left. apply lang_chr_has.
  - unfold plus in Hd. revert Hd. apply lang_cat_has. left. intros y.
    apply lang_cat_has. right. apply lang_chr_has.
Qed.

(** *** The controller *)

Section ControllerFacts.

Context {UDB : Type} (usvc : @UserServices UDB).
Implicit Types (st : @Site UDB).

Lemma has_run_not_missing n p s : has_run (S n) p s -> missing s = false.
Proof.
  intros (pre & mid & post & Hs & Hlen & _). destruct s; [|reflexivity].
  cbn in Hs. symmetry in Hs. apply app_eq_nil in Hs as [_ Hs].
  apply app_eq_nil in Hs as [-> _]. discriminate.
Qed.

Lemma email_not_missing s : test_anchored emailRegexp s = true -> missing s = false.
Proof. destruct s; [vm_compute; discriminate | reflexivity]. Qed.

Lemma test_false_iff m n p s :
  test (rep_range m n (Chr p)) s = false <-> ~ has_run m p s.
Proof.
  rewrite <- (test_rep_range m n). destruct (test _ s).
  - split; [discriminate | intros Hn; exfalso; now apply Hn].
  - split; [intros _; discriminate | reflexivity].
Qed.

(** A registration with a field left empty, with a username that holds
    no three alphanumeric characters in a row, a password that holds no
    six, or an address that fails the e-mail check is refused with a
    [CreatingUserException] before anything is done: no user is created
    and no mail is sent. *)
Theorem register_refuses_before_any_effect username password email ip st :
  missing password = true \/ missing email = true \/ missing username = true \/
  ~ has_run 3 is_alnum username \/ ~ has_run 6 is_alnum password \/
  test_anchored emailRegexp email = false ->
  exists message,
    register usvc username password email ip st
    = (Throws (CreatingUserException message), st).
Proof.
  intros Hbad. unfold register.
  destruct (missing password || missing email || missing username) eqn:Hm;
    [eauto|].
  apply orb_false_iff in Hm as [Hm Hu]. apply orb_false_iff in Hm as [Hp He].
  destruct (negb (test usernameRegexp username)
            || negb (test passwordRegexp password)
            || negb (test_anchored emailRegexp email)) eqn:Ht; [eauto|].
  exfalso.
  apply orb_false_iff in Ht as [Ht Hte]. apply orb_false_iff in Ht as [Htu Htp].
  apply negb_false_iff in Hte, Htu, Htp.
  destruct Hbad as [H|[H|[H|[H|[H|H]]]]]; try congruence.
  - apply H. apply (test_rep_range 3 30). exact Htu.
  - apply H. apply (test_rep_range 6 30). exact Htp.
Qed.

(** A registration that passes the checks creates the user, with the
    flag of the caller's address for a country (or none when the lookup
    of the address fails), and only then sends the registration mail.
    When the mail goes out the user is returned and that one mail is on
    record; when it does not, the call fails, but the user stays
    created. *)
Theorem register_creates_before_it_mails username password email ip st user d :
  has_run 3 is_alnum username ->
  has_run 6 is_alnum password ->
  test_anchored emailRegexp email = true ->
  us_create usvc
    {| new_username := username; new_password := password;
       new_email := email; new_country := country_of usvc ip |} (users st)
    = inr (user, d) ->
  (emailService_send usvc (registration_mail user) d = inr tt ->
   register usvc username password email ip st
   = (Returns user,
      {| users := d; sent := sent st ++ [registration_mail user] |})) /\
  (forall e, emailService_send usvc (registration_mail user) d = inl e ->
   register usvc username password email ip st
   = (Throws (CreatingUserException EMAIL_ERROR),
      {| users := d; sent := sent st |})).
Proof.
  intros Hu Hp He Hc.
  pose proof (has_run_not_missing _ _ _ Hu) as Hmu.
  pose proof (has_run_not_missing _ _ _ Hp) as Hmp.
  pose proof (email_not_missing _ He) as Hme.
  apply (test_rep_range 3 30) in Hu. apply (test_rep_range 6 30) in Hp.
  assert (Hpre :
    register usvc username password email ip st =
    match send_mail usvc (registration_mail user)
            {| users := d; sent := sent st |} with
    | (inl _, st') => (Throws (CreatingUserException EMAIL_ERROR), st')
    | (inr _, st') => (Returns user, st')
    end).
  { unfold register, country_of in *. rewrite Hmu, Hmp, Hme. cbn [orb].
    unfold usernameRegexp, passwordRegexp. rewrite Hu, Hp, He. cbn [negb orb].
    rewrite Hc. reflexivity. }
  split.
  - intros Hs. rewrite Hpre. unfold send_mail. cbn [users]. now rewrite Hs.
  - intros e Hs. rewrite Hpre. unfold send_mail. cbn [users]. now rewrite Hs.
Qed.

(** Activation hands out a token only for a user that the activation
    token names and that is not confirmed yet; a user that is confirmed
    already is always refused with an [ActivationUserException].  An
    activation that does not hand out a token leaves the state as it
    was, and no activation sends mail. *)
Theorem activate_only_the_unconfirmed token st :
  let r := fst (activate usvc token st) in
  let st' := snd (activate usvc token st) in
  sent st' = sent st /\
  (forall t, r = Returns t ->
     exists userId user,
       jwt_getUserIdByToken usvc token "activate" = inr userId /\
       us_findOneById usvc userId (users st) = inr (Some user) /\
       acc_isConfirmed user = false /\
       t = jwt_generateToken usvc (acc_id user) "7 days") /\
  ((forall t, r <> Returns t) -> st' = st) /\
  (forall userId user,
     jwt_getUserIdByToken usvc token "activate" = inr userId ->
     us_findOneById usvc userId (users st) = inr (Some user) ->
     acc_isConfirmed user = true ->
     r = Throws (ActivationUserException "User has already been activated!") /\
     st' = st).
Proof.
  unfold activate.
  destruct (jwt_getUserIdByToken usvc token "activate") as [e|userId] eqn:Hj;
    cbn.
  { split; [reflexivity|]. split; [intros t Ht; discriminate|].
    split; [reflexivity|]. intros uid u Hu; discriminate. }
  destruct (us_findOneById usvc userId (users st)) as [e|[user|]] eqn:Hf; cbn.
  { split; [reflexivity|]. split; [intros t Ht; discriminate|].
    split; [reflexivity|]. intros uid u Hu Hfu. congruence. }
  2:{ split; [reflexivity|]. split; [intros t Ht; discriminate|].
      split; [reflexivity|]. intros uid u Hu Hfu. congruence. }
  destruct (acc_isConfirmed user) eqn:Hc; cbn.
  { split; [reflexivity|]. split; [intros t Ht; discriminate|].
    split; [reflexivity|]. intros uid u Hu Hfu Hcu. split; reflexivity. }
  destruct (um_confirm usvc (acc_id user) (users st)) as [e|d]; cbn.
  { split; [reflexivity|]. split; [intros t Ht; discriminate|].
    split; [reflexivity|]. intros uid u Hu Hfu Hcu. congruence. }
  split; [reflexivity|]. split; [|split].
  - intros t Ht. exists userId, user. repeat split; congruence.
  - intros Hn. exfalso. exact (Hn _ eq_refl).
  - intros uid u Hu Hfu Hcu. congruence.
Qed.

(** A new password that holds no six alphanumeric characters in a row is
    refused before the reset token is even looked at, whoever asks. *)
Theorem set_password_refuses_weak_first token password st :
  ~ has_run 6 is_alnum password ->
  setPassword usvc token password st
  = (Throws (CreatingUserException "Too week password!"), st).
Proof.
  intros Hweak. unfold setPassword.
  apply (test_false_iff 6 30) in Hweak. unfold passwordRegexp. now rewrite Hweak.
Qed.

(** A forgotten-password request never touches the users and mails
    nobody but the user found under the given name: either nothing is
    sent, or exactly one reset mail goes to that user's address and the
    reply is a success. *)
Theorem forgot_password_mails_the_user_only username st :
  let r := fst (forgotPassword usvc username st) in
  let st' := snd (forgotPassword usvc username st) in
  users st' = users st /\
  (sent st' = sent st \/
   exists user,
     us_findOneByUsername usvc username (users st) = inr (Some user) /\
     sent st' = sent st ++ [reset_mail user] /\
     r = Returns ("success", None)).
Proof.
  unfold forgotPassword, send_mail.
  destruct (us_findOneByUsername usvc username (users st)) as [e|[user|]];
    cbn; [auto| |auto].
  destruct (emailService_send usvc _ (users st)) as [e|[]]; cbn; [auto|].
  split; [reflexivity|]. right. exists user. auto.
Qed.

End ControllerFacts.

(** * The properties at work on the small installation *)


Lemma toy_presence_ok d ss r : presence_ok (Toy.world d ss r).
Proof. now apply presence_ok_initial. Qed.

(** C1, as stated, fails: a new-game that goes through without any error
    appends two log entries, not one. *)
Lemma new_game_appends_two_logs :
  let r := handle Toy.services (NewGame "fresh") Toy.alice_client (Toy.lobby []) in
  fst r = Done tt /\
  errors (outbox (snd r)) = 0%nat /\
  map log_type (logs (snd r)) = ["create"; "join"] /\
  length (logs (snd r)) <> 1%nat.
Proof. vm_compute. repeat split. discriminate. Qed.

Lemma committed_command_logs_witness :
  let w := Toy.table7 [] in
  let w' := snd (handle Toy.services (MakeMove 7 "win") Toy.alice_client w) in
  exists new,
    logs w' = logs w ++ new /\
    map log_type new = ["move"; "finish"] /\
    Forall (fun e => log_user e = Toy.alice) new.
Proof.
  intros w w'.
  apply (committed_command_logs Toy.services (MakeMove 7 "win")
           Toy.alice_client w w'); vm_compute; reflexivity.
Defined.









Lemma room_broadcast_is_per_viewer_witness :
  let w :=
    Toy.world [] [Toy.alice_tab1; Toy.guest_tab; Toy.bob_tab; Toy.alice_tab2]
      {[ "g7" := ["s1"; "s4"; "s3"] ]} in
  exists new,
    sendGameToGameUsers Toy.services Toy.game7 w
    = (Done tt, set_outbox (outbox w ++ new) w) /\
    {| em_target := ToSocket "s1"; em_event := "update-opened-game";
       em_data := PView "g7 for alice" |} ∈ new /\
    {| em_target := ToSocket "s3"; em_event := "update-opened-game";
       em_data := PView "g7 for bob" |} ∈ new /\
    (forall e, e ∈ new -> em_target e <> ToSocket "s4") /\
    (forall e, e ∈ new -> em_target e <> ToSocket "s2").
Proof.
  intros w.
  destruct (room_broadcast_is_per_viewer Toy.services Toy.game7 w)
    as (new & Hd & Hpos & _ & Honly).
  - vm_compute.
    repeat (apply NoDup_cons_2;
            [rewrite ?elem_of_cons, elem_of_nil; intuition discriminate|]).
    apply NoDup_nil_2.
  - intros sid Hin. vm_compute in Hin.
    apply elem_of_cons in Hin as [->|Hin];
      [exists Toy.alice_tab1; split; [|reflexivity];
       unfold w; cbn [connected Toy.world]; rewrite ?elem_of_cons; auto 10|].
    apply elem_of_cons in Hin as [->|Hin];
      [exists Toy.guest_tab; split; [|reflexivity];
       unfold w; cbn [connected Toy.world]; rewrite ?elem_of_cons; auto 10|].
    apply elem_of_cons in Hin as [->|Hin];
      [exists Toy.bob_tab; split; [|reflexivity];
       unfold w; cbn [connected Toy.world]; rewrite ?elem_of_cons; auto 10|].
    inversion Hin.
  - assert (Hin : forall s, s ∈ [Toy.alice_tab1; Toy.guest_tab; Toy.bob_tab;
                                 Toy.alice_tab2] -> s ∈ connected w)
      by (intros s Hs; exact Hs).
    exists new. split; [exact Hd|]. split; [|split; [|split]].
    + apply (Hpos Toy.alice_tab1 Toy.alice);
        [apply Hin; rewrite ?elem_of_cons; auto 10
        |vm_compute; repeat constructor | reflexivity].
    + apply (Hpos Toy.bob_tab Toy.bob);
        [apply Hin; rewrite ?elem_of_cons; auto 10
        |vm_compute; repeat constructor | reflexivity].
    + intros e He Ht.
      destruct (Honly Toy.guest_tab e) as [_ [u Hu]];
        [apply Hin; rewrite ?elem_of_cons; auto 10|exact He|exact Ht|].
      discriminate.
    + intros e He Ht.
      destruct (Honly Toy.alice_tab2 e) as [Hroom _];
        [apply Hin; rewrite ?elem_of_cons; auto 10|exact He|exact Ht|].
      vm_compute in Hroom.
      repeat (apply elem_of_cons in Hroom as [Hroom|Hroom];
              [discriminate|]).
      inversion Hroom.
Defined.

(** C3, as stated, fails: after a successful remove-game of game 7, whose
    room holds the sockets of two users, both have been sent the kick
    signal and both are still in the room index. *)
Lemma remove_game_keeps_room_index :
  let w := Toy.table7 [] in
  let w' := snd (removeGame Toy.services Toy.alice_client 7 w) in
  fst (removeGame Toy.services Toy.alice_client 7 w) = Done tt /\
  outbox w' =
    [kick_message "s1" Toy.alice; kick_message "s3" Toy.bob;
     {| em_target := ToAll; em_event := "remove-game";
        em_data := PGameNumber 7 |}] /\
  room_members "g7" w' = ["s1"; "s3"].
Proof. vm_compute. repeat split. Qed.

Lemma table7_members_connected d sid :
  sid ∈ room_members "g7" (Toy.table7 d) -> is_Some (find_socket sid (Toy.table7 d)).
Proof.
  intros Hin. vm_compute in Hin.
  apply elem_of_cons in Hin as [->|Hin]; [vm_compute; eauto|].
  apply elem_of_cons in Hin as [->|Hin]; [vm_compute; eauto|].
  inversion Hin.
Defined.

Lemma remove_game_signals_room_witness :
  let w := Toy.table7 [] in
  rooms (snd (removeGame Toy.services Toy.alice_client 7 w)) = rooms w /\
  kick_message "s3" Toy.bob
    ∈ outbox (snd (removeGame Toy.services Toy.alice_client 7 w)).
Proof.
  intros w.
  destruct (remove_game_signals_room Toy.services Toy.alice_client 7 w
              Toy.game7 [] [] eq_refl eq_refl eq_refl
              (table7_members_connected []))
    as (_ & Hk & Hr & _).
  split; [exact Hr|]. apply (Hk "s3" Toy.bob_tab Toy.bob).
  - vm_compute. apply list_elem_of_In. cbn. auto.
  - reflexivity.
  - reflexivity.
Defined.

Lemma debounced_connect_is_ignored_witness :
  let w := snd (handleConnection Toy.services Toy.alice_tab1 (Toy.lobby [])) in
  handleConnection Toy.services Toy.alice_tab2 w = (Done tt, w).
Proof.
  intros w.
  apply (debounced_connect_is_ignored Toy.services Toy.alice_tab2 w 0%nat).
  vm_compute. reflexivity.
Defined.

Lemma move_rejects_non_player_witness :
  move Toy.services Toy.alice_client 9 "e2e4" (Toy.table7 []) =
    (Done tt,
     set_outbox [error_message Toy.alice_client NOT_A_PLAYER] (Toy.table7 [])).
Proof.
  apply (move_rejects_non_player Toy.services Toy.alice_client 9 "e2e4"
           (Toy.table7 [])).
  intros gs g [= <-] Hin. apply list_elem_of_singleton in Hin as ->.
  vm_compute. discriminate.
Defined.

Lemma connect_without_opened_game_witness :
  let w' := snd (handleConnection Toy.services Toy.bob_tab (Toy.table7 [])) in
  rooms w' = rooms (Toy.table7 []) /\ logs w' = [] /\ outbox w' = [].
Proof.
  intros w'.
  destruct (connect_without_opened_game Toy.services Toy.bob_tab (Toy.table7 [])
              Toy.bob eq_refl eq_refl) as (_ & Hr & Hl & Ho & _).
  split; [exact Hr|]. split; [exact Hl | exact Ho].
Defined.

(** * The further properties at work *)

Lemma only_the_caller_changes_rooms_witness :
  "s3" ∈ room_members "g7"
           (snd (receive Toy.services (Coordinator (LeaveGame 7))
                   Toy.alice_client (Toy.table7 []))) <->
  "s3" ∈ room_members "g7" (Toy.table7 []).
Proof.
  apply (only_the_caller_changes_rooms Toy.services (Coordinator (LeaveGame 7))
           Toy.alice_client (Toy.table7 []) "g7" "s3").
  vm_compute. discriminate.
Defined.

Lemma rejected_log_keeps_the_mutation_witness :
  handle Toy.services (JoinGame 7) Toy.alice_client (Toy.lobby ["log"]) =
    (Done tt,
     set_outbox [error_message Toy.alice_client "log rejected"]
       (Toy.lobby ["log"])) /\
  handle Toy.services (JoinGame 7) Toy.alice_client (Toy.lobby ["!log"]) =
    (Thrown, Toy.lobby ["!log"]).
Proof.
  split.
  - apply (rejected_log_keeps_the_mutation Toy.services (JoinGame 7)
             Toy.alice_client (Toy.lobby ["log"]) Toy.game7 ["log"]
             (mk_log "join" Toy.alice "g7" None) (Rejected "log rejected"));
      reflexivity.
  - apply (rejected_log_keeps_the_mutation Toy.services (JoinGame 7)
             Toy.alice_client (Toy.lobby ["!log"]) Toy.game7 ["!log"]
             (mk_log "join" Toy.alice "g7" None) Failed);
      reflexivity.
Defined.

Lemma start_game_is_silent_when_invites_fail_witness :
  let w := Toy.table7 ["closeInvites"] in
  startGame Toy.services Toy.alice_client 7 w =
    (Done tt,
     set_outbox [error_message Toy.alice_client "closeInvites rejected"]
       (set_logs [mk_log "start" Toy.alice "g7" None] w)).
Proof.
  intros w.
  apply (start_game_is_silent_when_invites_fail Toy.services Toy.alice_client 7
           w Toy.game7 ["closeInvites"] ["closeInvites"]
           (Rejected "closeInvites rejected"));
    reflexivity.
Defined.

Lemma remove_game_is_silent_when_invites_fail_witness :
  let w := Toy.table7 ["!closeInvites"] in
  removeGame Toy.services Toy.alice_client 7 w = (Thrown, w).
Proof.
  intros w.
  apply (remove_game_is_silent_when_invites_fail Toy.services Toy.alice_client
           7 w Toy.game7 ["!closeInvites"] Failed);
    reflexivity.
Defined.


Lemma some_messages_write_no_log_witness :
  logs (snd (receive Toy.services (Coordinator (RemoveGame 7)) Toy.alice_client
               (Toy.table7 []))) = [].
Proof.
  apply (some_messages_write_no_log Toy.services (Coordinator (RemoveGame 7))
           Toy.alice_client (Toy.table7 [])).
  reflexivity.
Defined.

Lemma caller_follows_the_command_witness :
  "s1" ∈ room_members "g7"
           (snd (handle Toy.services (JoinGame 7) Toy.alice_client
                   (Toy.lobby []))).
Proof.
  destruct (caller_follows_the_command Toy.services (JoinGame 7)
              Toy.alice_client (Toy.lobby []) Toy.game7 []
              (mk_log "join" Toy.alice "g7" None) [] eq_refl eq_refl eq_refl)
    as [Henter _].
  exact (Henter eq_refl).
Defined.

Lemma first_connect_is_announced_witness :
  let w' := snd (handleConnection Toy.services Toy.alice_tab1 (Toy.lobby [])) in
  logs w' = [mk_log "connect" Toy.alice "g7" None] /\
  outbox w' =
    [view_message Toy.services Toy.game7 "s1" Toy.alice;
     {| em_target := ToAll; em_event := "update-game";
        em_data := PView "g7" |}].
Proof.
  intros w'.
  pose proof (first_connect_is_announced Toy.services Toy.alice_tab1
                (Toy.lobby []) Toy.alice Toy.game7_ref [] Toy.game7
                eq_refl eq_refl eq_refl eq_refl eq_refl eq_refl) as H.
  cbv zeta in H. fold w' in H.
  destruct H as (_ & _ & _ & Hl & Ho & _).
  - intros sid Hin. vm_compute in Hin.
    apply elem_of_cons in Hin as [->|Hin]; [vm_compute; eauto | inversion Hin].
  - split; [exact Hl | exact Ho].
Defined.

Lemma anonymous_connection_leaves_no_trace_witness :
  handleDisconnect Toy.services Toy.guest_tab (Toy.table7 [])
  = (Done tt, Toy.table7 []).
Proof.
  apply (anonymous_connection_leaves_no_trace Toy.services Toy.guest_tab
           (Toy.table7 [])).
  reflexivity.
Defined.



Lemma presence_stays_consistent_witness :
  presence_ok
    (run Toy.services
       [(0, Connect Toy.alice_tab1); (1000, Disconnect Toy.alice_tab1);
        (2000, Connect Toy.alice_tab2);
        (7000, Message Toy.alice_client (MakeMove 7 "win"))]
       (Toy.world [] [] ∅)).
Proof.
  apply (presence_stays_consistent Toy.services). apply toy_presence_ok.
Defined.

Lemma guard_always_expires_witness :
  let w := snd (handleConnection Toy.services Toy.alice_tab1 (Toy.lobby [])) in
  exists tm,
    tm ∈ pending w /\ timer_id tm = 0%nat /\
    timer_action tm = ClearConnect "token-alice" /\
    forall t, fire_at tm <= t ->
      connectTimers (advance Toy.services t w) !! "token-alice" = None /\
      forall again, sock_token again = "token-alice" ->
        connectTimers
          (snd (handleConnection Toy.services again (advance Toy.services t w)))
          !! "token-alice"
        = Some (next_timer (advance Toy.services t w)).
Proof.
  intros w.
  apply (guard_always_expires Toy.services w "token-alice" 0%nat).
  - apply presence_ok_handleConnection, toy_presence_ok.
  - vm_compute. reflexivity.
  - reflexivity.
Defined.

Lemma email_check_needs_at_and_dot_witness :
  exists local rest,
    String.list_ascii_of_string "carla@example.org" = local ++ "@"%char :: rest /\
    local <> [] /\ Forall (fun a => is_local a = true) local /\
    "."%char ∈ rest.
Proof.
  apply (email_check_needs_at_and_dot "carla@example.org").
  vm_compute. reflexivity.
Defined.

Lemma register_refuses_before_any_effect_witness :
  exists message,
    register ToyUsers.services "al" "secret12" "al@example.org" "1.2.3.4"
      (ToyUsers.site [])
    = (Throws (CreatingUserException message), ToyUsers.site []).
Proof.
  apply (register_refuses_before_any_effect ToyUsers.services).
  right. right. right. left.
  intros Hrun. apply (test_rep_range 3 30) in Hrun. vm_compute in Hrun.
  discriminate.
Defined.

Lemma register_creates_before_it_mails_witness :
  let carla :=
    {| acc_id := "carla"; acc_email := "carla@example.org";
       acc_isConfirmed := false |} in
  register ToyUsers.services "carla" "secret12" "carla@example.org" ""
    (ToyUsers.site ["mail"])
  = (Throws (CreatingUserException EMAIL_ERROR),
     {| users := ([ToyUsers.carol; ToyUsers.dave; carla], ["mail"]);
        sent := [] |}).
Proof.
  intros carla.
  destruct (register_creates_before_it_mails ToyUsers.services "carla"
              "secret12" "carla@example.org" "" (ToyUsers.site ["mail"]) carla
              ([ToyUsers.carol; ToyUsers.dave; carla], ["mail"]))
    as [_ Hfail].
  - apply (test_rep_range 3 30). vm_compute. reflexivity.
  - apply (test_rep_range 6 30). vm_compute. reflexivity.
  - vm_compute. reflexivity.
  - reflexivity.
  - apply (Hfail "mail failed"). reflexivity.
Defined.

Lemma set_password_refuses_weak_first_witness :
  setPassword ToyUsers.services "u1" "12 45" (ToyUsers.site [])
  = (Throws (CreatingUserException "Too week password!"), ToyUsers.site []).
Proof.
  apply (set_password_refuses_weak_first ToyUsers.services).
  intros Hrun. apply (test_rep_range 6 30) in Hrun. vm_compute in Hrun.
  discriminate.
Defined.
